(** * Repository content migration: rule engine, tree transformer, publish pipeline

    A shallow embedding of [gen_repos.py] and [re_in_repos.py], and the
    properties of their rule engine ([replace_content], [camel_to_kebab]),
    tree transformer ([process_directory]) and publish pipelines
    ([process_repo]).  Definitions come first, then the proofs.

    Python [str] values are modelled by [string].  A character of [string]
    is one of the 256 code points U+0000..U+00FF; the case tables below are
    the ones Python's [str.lower], [str.isupper] use on that range, and the
    regular-expression classes [[A-Z]] and [[a-z]] are the ASCII ranges.

    The working copy is a tree of directories and regular files;
    [os.rename] has its POSIX meaning.  Calls to the remote host and to git
    are answered by a [world], so that a theorem about a run holds whatever
    the outside world answers. *)

From Stdlib Require Import Strings.String Strings.Ascii Lists.List Bool Arith Lia.
From Stdlib Require Import Sorting.Permutation.
Import ListNotations.
Open Scope list_scope.
Open Scope string_scope.

(* ------------------------------------------------------------------ *)
(** ** Characters and elementary string operations *)

Definition code (c : ascii) : nat := nat_of_ascii c.

Definition in_range (lo hi : nat) (c : ascii) : bool :=
  Nat.leb lo (code c) && Nat.leb (code c) hi.

(** The regex classes [[A-Z]] and [[a-z]]. *)
Definition is_AZ (c : ascii) : bool := in_range 65 90 c.
Definition is_az (c : ascii) : bool := in_range 97 122 c.

(** Upper-case characters below U+0100: A-Z, U+00C0..U+00D6, U+00D8..U+00DE. *)
Definition char_isupper (c : ascii) : bool :=
  is_AZ c || in_range 192 214 c || in_range 216 222 c.

(** Lower-case characters below U+0100: a-z, U+00AA, U+00B5, U+00BA,
    U+00DF..U+00F6, U+00F8..U+00FF. *)
Definition char_islower (c : ascii) : bool :=
  is_az c || in_range 170 170 c || in_range 181 181 c || in_range 186 186 c
  || in_range 223 246 c || in_range 248 255 c.

(** [str.lower] on one character: upper-case characters move 32 places up. *)
Definition char_lower (c : ascii) : ascii :=
  if char_isupper c then ascii_of_nat (code c + 32) else c.

(** [s.lower()] *)
Fixpoint py_lower (s : string) : string :=
  match s with
  | "" => ""
  | String c s' => String (char_lower c) (py_lower s')
  end.

Fixpoint all_chars (p : ascii -> bool) (s : string) : bool :=
  match s with
  | "" => true
  | String c s' => p c && all_chars p s'
  end.

Fixpoint some_char (p : ascii -> bool) (s : string) : bool :=
  match s with
  | "" => false
  | String c s' => p c || some_char p s'
  end.

(** [s.isupper()]: no lower-case character and at least one upper-case one. *)
Definition py_isupper (s : string) : bool :=
  all_chars (fun c => negb (char_islower c)) s && some_char char_isupper s.

(** [s.startswith(w)] *)
Fixpoint startswith (w s : string) : bool :=
  match w, s with
  | "", _ => true
  | String _ _, "" => false
  | String a w', String c s' => Ascii.eqb a c && startswith w' s'
  end.

(** [w in s]: [w] occurs in [s] as a substring. *)
Fixpoint contains (w s : string) : bool :=
  startswith w s ||
  match s with
  | "" => false
  | String _ s' => contains w s'
  end.

(** [sep.join(parts)] *)
Fixpoint join (sep : string) (parts : list string) : string :=
  match parts with
  | [] => ""
  | p :: ps =>
      match ps with
      | [] => p
      | _ :: _ => p ++ sep ++ join sep ps
      end
  end.

(* ------------------------------------------------------------------ *)
(** ** Rule engine: [replace_content] *)

(** Every pattern of the rule list is a sequence of ordinary characters,
    except for one escaped dot.  Such a regular expression matches exactly
    one string, obtained by dropping the backslash of each escape. *)
Fixpoint regex_literal (p : string) : string :=
  match p with
  | "" => ""
  | String c p' =>
      match p' with
      | String d p'' =>
          if Ascii.eqb c "\" then String d (regex_literal p'')
          else String c (regex_literal p')
      | "" => String c ""
      end
  end.

(** Left-to-right scan of [re.sub] for a non-empty literal [pat]: at each
    position where [pat] starts, emit [repl] and resume after the match
    ([skip] counts the characters of the match still to be passed over);
    elsewhere copy the character. *)
Fixpoint sub_scan (pat repl : string) (skip : nat) (s : string) : string :=
  match s with
  | "" => ""
  | String c s' =>
      match skip with
      | S k => sub_scan pat repl k s'
      | O =>
          if startswith pat s
          then repl ++ sub_scan pat repl (String.length pat - 1) s'
          else String c (sub_scan pat repl 0 s')
      end
  end.

(** An empty pattern matches before every character and at the end. *)
Fixpoint sub_empty (repl : string) (s : string) : string :=
  match s with
  | "" => repl
  | String c s' => repl ++ String c (sub_empty repl s')
  end.

(** [re.sub(old, new, content)] for a literal pattern and a replacement
    without backslashes. *)
Definition re_sub (old new content : string) : string :=
  match regex_literal old with
  | "" => sub_empty new content
  | String _ _ as pat => sub_scan pat new 0 content
  end.

Definition replacements : list (string * string) :=
  [ ("tools", "agents"); ("Tools", "Agents");
    ("tool", "agent"); ("Tool", "Agent");
    ("biotool", "bioagent"); ("biotools", "bioagents");
    ("BioTools", "BioAgents"); ("BioTool", "BioAgent");
    ("elixir", "iechor"); ("Elixir", "iEchor");
    ("ELIXIR", "IECHOR"); ("bio\.tools", "hub.bioagents.tech") ].

(** The loop [for old, new in rules: content = re.sub(old, new, content)]. *)
Fixpoint apply_rules (rules : list (string * string)) (content : string) : string :=
  match rules with
  | [] => content
  | (old, new) :: rest => apply_rules rest (re_sub old new content)
  end.

Definition replace_content (content : string) : string :=
  apply_rules replacements content.

(* ------------------------------------------------------------------ *)
(** ** Rule engine: [camel_to_kebab] *)

Definition next_is_az (rest : string) : bool :=
  match rest with
  | "" => false
  | String d _ => is_az d
  end.

(** The zero-width pattern [(?<!^)(?=[A-Z][a-z]|(?<=[a-z])[A-Z])] matches
    before character [c] (which is not the first one, [prev] precedes it and
    [rest] follows it) exactly when this holds. *)
Definition boundary (prev c : ascii) (rest : string) : bool :=
  (is_AZ c && next_is_az rest) || (is_az prev && is_AZ c).

(** Scan of [pattern.split] after the first character: the rest of the part
    in progress, and the parts that follow it. *)
Fixpoint split_after (prev : ascii) (s : string) : string * list string :=
  match s with
  | "" => ("", [])
  | String c s' =>
      let (cur, later) := split_after c s' in
      if boundary prev c s' then ("", String c cur :: later)
      else (String c cur, later)
  end.

Definition pattern_split (name : string) : list string :=
  match name with
  | "" => [""]
  | String c s' => let (cur, later) := split_after c s' in String c cur :: later
  end.

(** [part.lower() if not (part.isupper() and len(part) > 1) else part] *)
Definition process_part (part : string) : string :=
  if negb (py_isupper part && Nat.ltb 1 (String.length part)) then py_lower part else part.

Definition camel_to_kebab (name : string) : string :=
  if contains "-" name then name
  else join "-" (map process_part (pattern_split name)).

(* ------------------------------------------------------------------ *)
(** ** Auxiliary notions used to state and prove facts about the rules *)

(** [s[n:]] *)
Fixpoint drop (n : nat) (s : string) : string :=
  match n, s with
  | O, _ => s
  | S _, "" => ""
  | S k, String _ s' => drop k s'
  end.

(** Character [c] occurs in [s]. *)
Definition has_char (c : ascii) (s : string) : bool := some_char (Ascii.eqb c) s.

(** A rule cannot create an occurrence of the word [w] when its pattern is
    not empty, its replacement is not empty and starts with a character
    foreign to [w], and the first character of [w] is foreign to the
    replacement. *)
Definition rule_keeps_out (w : string) (rule : string * string) : bool :=
  match regex_literal (fst rule), snd rule, w with
  | String _ _, String r0 _, String w0 _ =>
      negb (has_char r0 w) && negb (has_char w0 (snd rule))
  | _, _, _ => false
  end.

(** No occurrence of [w] can start inside [r], whatever follows [r]: no
    non-empty suffix of [r] starts [w] or is started by [w]. *)
Fixpoint no_start_inside (w r : string) : bool :=
  match r with
  | "" => true
  | String _ r' => negb (startswith w r || startswith r w) && no_start_inside w r'
  end.

(** The rule list without its last rule. *)
Definition replacements_but_last : list (string * string) := removelast replacements.

(* ------------------------------------------------------------------ *)
(** ** Results, exceptions, messages *)

(** The exception classes the two programs meet. *)
Inductive exn : Type :=
  | FileNotFoundError
  | IsADirectoryError
  | NotADirectoryError
  | DirectoryNotEmpty          (* OSError, ENOTEMPTY *)
  | UnicodeDecodeError
  | GithubException
  | GitCommandError
  | ValueError
  | TypeError
  | OtherError.

Inductive res (A : Type) : Type :=
  | Ok (a : A)
  | Raise (e : exn).
Arguments Ok {A} a.
Arguments Raise {A} e.

Definition path := list string.

(** The lines the programs print, one constructor per [print] call. *)
Inductive message : Type :=
  | RenamedDirectory (old new : path)
  | RenamedFile (old new : path)
  | UpdatedContent (p : path)
  | SkippedNonUtf8 (p : path)
  | SkippedBinary (p : path)
  | OriginalAndNewName (orig new : string)
  | AlreadyExistsSkipping (name : string)
  | ExistsReprocessing (name : string)
  | DoesNotExistCreating (name : string)
  | CreatedRepository (name : string)
  | ErrorCreating (name : string)
  | SuccessfullyPushed (branch name : string)
  | ErrorPushing (name : string)
  | PushFailedRetrying
  | AddedCollaborator (name : string)
  | ErrorAddingCollaborator (name : string)
  | ProcessedAndPushed (name : string)
  | LocalRepositoryFound (name : string)
  | UncommittedChangesSkipping (name : string)
  | CloningRepository (name : string)
  | ProcessingRepository (name : string)
  | ChangesPushed (name : string)
  | ErrorExecutingCommand (command : string)
  | ErrorMessage (command : string).

(* ------------------------------------------------------------------ *)
(** ** The file tree *)

Definition bytes := list Byte.byte.

#[local] Unset Elimination Schemes.
(** A directory lists its entries by name, in the order [os.scandir]
    reports them.  Only regular files and directories are modelled. *)
Inductive node : Type :=
  | File (content : bytes)
  | Dir (entries : list (string * node)).
#[local] Set Elimination Schemes.

Definition entries := list (string * node).

(** What reading and writing a file in text mode does to its bytes.
    [text_readable c]: [open(p, 'tr').read()] succeeds on content [c];
    [read_utf8 c]: the text [open(p, 'r', encoding='utf-8').read()] returns,
    [None] when it raises [UnicodeDecodeError]; [write_utf8 s]: the bytes
    [open(p, 'w', encoding='utf-8').write(s)] leaves in the file. *)
Record codec : Type := {
  text_readable : bytes -> bool;
  read_utf8 : bytes -> option string;
  write_utf8 : string -> bytes
}.

(** What [process_directory] does, in order.  [VisitDir] and [VisitFile]
    mark the start of a loop iteration on an entry and have no effect;
    [Rename] is a call of [os.rename]; [Write] overwrites a file. *)
Inductive event : Type :=
  | VisitDir (p : path)
  | VisitFile (p : path)
  | Rename (old new : path)
  | Write (p : path) (before after : bytes)
  | Say (m : message).

Definition is_dir (n : node) : bool :=
  match n with Dir _ => true | File _ => false end.

Fixpoint lookup (name : string) (es : entries) : option node :=
  match es with
  | [] => None
  | (n, x) :: es' => if String.eqb n name then Some x else lookup name es'
  end.

Definition names (es : entries) : list string := map fst es.
Definition dir_names (es : entries) : list string :=
  names (filter (fun e => is_dir (snd e)) es).
Definition file_names (es : entries) : list string :=
  names (filter (fun e => negb (is_dir (snd e))) es).

(** The listing after [old] has become [new]: the entry keeps its place and
    an entry that had the name [new] is gone. *)
Fixpoint rebind (old new : string) (es : entries) : entries :=
  match es with
  | [] => []
  | (n, x) :: es' =>
      if String.eqb n old then (new, x) :: rebind old new es'
      else if String.eqb n new then rebind old new es'
      else (n, x) :: rebind old new es'
  end.

(** [os.rename(join(root, old), join(root, new))] on a POSIX system, seen
    from the directory [root] that holds both names. *)
Definition os_rename (old new : string) (es : entries) : res entries :=
  match lookup old es with
  | None => Raise FileNotFoundError
  | Some src =>
      if String.eqb old new then Ok es
      else
        match lookup new es, src with
        | None, _ => Ok (rebind old new es)
        | Some (File _), File _ => Ok (rebind old new es)
        | Some (Dir []), Dir _ => Ok (rebind old new es)
        | Some (Dir (_ :: _)), Dir _ => Raise DirectoryNotEmpty
        | Some (Dir _), File _ => Raise IsADirectoryError
        | Some (File _), Dir _ => Raise NotADirectoryError
        end
  end.

(** Overwrite the content of the file called [name]. *)
Fixpoint set_content (name : string) (c : bytes) (es : entries) : entries :=
  match es with
  | [] => []
  | (n, x) :: es' =>
      if String.eqb n name then (n, File c) :: es'
      else (n, x) :: set_content name c es'
  end.

Definition path_eqb (p q : path) : bool :=
  if list_eq_dec string_dec p q then true else false.

Section TreeTransformer.

Variable cd : codec.

(** [is_binary(join(root, name))]: any failure to open or read counts. *)
Definition is_binary (name : string) (es : entries) : bool :=
  match lookup name es with
  | Some (File c) => negb (text_readable cd c)
  | _ => true
  end.

(** One iteration of [for dir_name in dirs]. *)
Definition process_dir_name (root : path) (dir_name : string) (es : entries)
  : list event * res entries :=
  let old_dir_path := (root ++ [dir_name])%list in
  let new_dir_name := replace_content dir_name in
  let new_dir_path := (root ++ [new_dir_name])%list in
  if negb (path_eqb old_dir_path new_dir_path) then
    match os_rename dir_name new_dir_name es with
    | Ok es' =>
        ([VisitDir old_dir_path; Rename old_dir_path new_dir_path;
          Say (RenamedDirectory old_dir_path new_dir_path)], Ok es')
    | Raise e => ([VisitDir old_dir_path; Rename old_dir_path new_dir_path], Raise e)
    end
  else ([VisitDir old_dir_path], Ok es).

(** The content step of one iteration of [for file_name in files]. *)
Definition process_content (new_file_path : path) (new_file_name : string)
  (es : entries) : list event * res entries :=
  if negb (is_binary new_file_name es) then
    match lookup new_file_name es with
    | Some (File c) =>
        match read_utf8 cd c with
        | Some content =>
            let new_content := replace_content content in
            if negb (String.eqb new_content content) then
              ([Write new_file_path c (write_utf8 cd new_content);
                Say (UpdatedContent new_file_path)],
               Ok (set_content new_file_name (write_utf8 cd new_content) es))
            else ([], Ok es)
        | None => ([Say (SkippedNonUtf8 new_file_path)], Ok es)
        end
    | Some (Dir _) => ([], Raise IsADirectoryError)
    | None => ([], Raise FileNotFoundError)
    end
  else ([Say (SkippedBinary new_file_path)], Ok es).

(** One iteration of [for file_name in files]. *)
Definition process_file_name (root : path) (file_name : string) (es : entries)
  : list event * res entries :=
  let old_file_path := (root ++ [file_name])%list in
  let new_file_name := replace_content file_name in
  let new_file_path := (root ++ [new_file_name])%list in
  if negb (path_eqb old_file_path new_file_path) then
    match os_rename file_name new_file_name es with
    | Ok es' =>
        let (tr, r) := process_content new_file_path new_file_name es' in
        (VisitFile old_file_path :: Rename old_file_path new_file_path
           :: Say (RenamedFile old_file_path new_file_path) :: tr, r)
    | Raise e => ([VisitFile old_file_path; Rename old_file_path new_file_path], Raise e)
    end
  else
    let (tr, r) := process_content new_file_path new_file_name es in
    (VisitFile old_file_path :: tr, r).

(** A [for] loop whose body threads the listing and may raise. *)
Fixpoint for_each (body : string -> entries -> list event * res entries)
  (l : list string) (es : entries) : list event * res entries :=
  match l with
  | [] => ([], Ok es)
  | x :: l' =>
      match body x es with
      | (tr, Ok es') => let (tr', r) := for_each body l' es' in ((tr ++ tr')%list, r)
      | (tr, Raise e) => (tr, Raise e)
      end
  end.

(** The body of the [os.walk] loop for one triple [(root, dirs, files)]. *)
Definition process_level (root : path) (dirs files : list string) (es : entries)
  : list event * res entries :=
  match for_each (process_dir_name root) dirs es with
  | (tr, Ok es') =>
      let (tr', r) := for_each (process_file_name root) files es' in ((tr ++ tr')%list, r)
  | (tr, Raise e) => (tr, Raise e)
  end.

(** The recursive calls of [os.walk(top, topdown=False)]: each sub-directory
    of the scan [l] is walked in turn, by [walk]. *)
Fixpoint walk_subdirs (walk : path -> node -> list event * res node)
  (root : path) (l : entries) : list event * res entries :=
  match l with
  | [] => ([], Ok [])
  | (name, child) :: l' =>
      match child with
      | File _ =>
          match walk_subdirs walk root l' with
          | (tr, Ok r) => (tr, Ok ((name, child) :: r))
          | (tr, Raise e) => (tr, Raise e)
          end
      | Dir _ =>
          match walk (root ++ [name])%list child with
          | (tr1, Ok child') =>
              match walk_subdirs walk root l' with
              | (tr2, Ok r) => ((tr1 ++ tr2)%list, Ok ((name, child') :: r))
              | (tr2, Raise e) => ((tr1 ++ tr2)%list, Raise e)
              end
          | (tr1, Raise e) => (tr1, Raise e)
          end
      end
  end.

(** [os.walk(top, topdown=False)] with the loop body run at each triple it
    yields: the directory is scanned, each sub-directory of the scan is
    walked in turn, then the triple of the directory itself is yielded.  The
    body run at a triple only touches the entries of that directory, so the
    walk of a sub-directory is a function of that sub-tree. *)
Fixpoint walk (root : path) (n : node) {struct n} : list event * res node :=
  match n with
  | File c => ([], Ok (File c))
  | Dir es =>
      match walk_subdirs walk root es with
      | (tr, Ok es') =>
          match process_level root (dir_names es) (file_names es) es' with
          | (tr', Ok es'') => ((tr ++ tr')%list, Ok (Dir es''))
          | (tr', Raise e) => ((tr ++ tr')%list, Raise e)
          end
      | (tr, Raise e) => (tr, Raise e)
      end
  end.

Definition process_directory (dir_path : path) (tree : node) : list event * res node :=
  walk dir_path tree.

End TreeTransformer.

(* ------------------------------------------------------------------ *)
(** ** Notions used to state the properties of the tree transformer *)

(** Induction over a tree, with the property available for every entry of a
    directory. *)
Fixpoint node_induction (P : node -> Prop)
  (on_file : forall c, P (File c))
  (on_dir : forall es, Forall (fun e => P (snd e)) es -> P (Dir es))
  (n : node) {struct n} : P n :=
  match n with
  | File c => on_file c
  | Dir es =>
      on_dir es
        ((fix all (l : entries) : Forall (fun e => P (snd e)) l :=
            match l with
            | [] => Forall_nil _
            | e :: l' =>
                Forall_cons e
                  (match e return P (snd e) with
                   | (_, child) => node_induction P on_file on_dir child
                   end)
                  (all l')
            end) es)
  end.

(** The node a relative path leads to. *)
Fixpoint find (n : node) (q : path) : option node :=
  match q with
  | [] => Some n
  | name :: q' =>
      match n with
      | File _ => None
      | Dir es =>
          match lookup name es with
          | Some child => find child q'
          | None => None
          end
      end
  end.

Definition message_paths (m : message) : list path :=
  match m with
  | RenamedDirectory old new => [old; new]
  | RenamedFile old new => [old; new]
  | UpdatedContent p => [p]
  | SkippedNonUtf8 p => [p]
  | SkippedBinary p => [p]
  | _ => []
  end.

(** The paths an event mentions. *)
Definition paths_of (e : event) : list path :=
  match e with
  | VisitDir p => [p]
  | VisitFile p => [p]
  | Rename old new => [old; new]
  | Write p _ _ => [p]
  | Say m => message_paths m
  end.

(** [p] lies strictly below [d]. *)
Definition below (d p : path) : Prop := exists q, q <> [] /\ p = (d ++ q)%list.

(** The entries on which a loop iteration started, in order. *)
Fixpoint visited (tr : list event) : list path :=
  match tr with
  | [] => []
  | VisitDir p :: tr' => p :: visited tr'
  | VisitFile p :: tr' => p :: visited tr'
  | _ :: tr' => visited tr'
  end.

(** The paths [os.rename] was called on, in order. *)
Fixpoint renamed_from (tr : list event) : list path :=
  match tr with
  | [] => []
  | Rename old _ :: tr' => old :: renamed_from tr'
  | _ :: tr' => renamed_from tr'
  end.

(** [l1] is obtained from [l2] by leaving elements out. *)
Inductive subseq {A : Type} : list A -> list A -> Prop :=
  | subseq_nil : subseq [] []
  | subseq_skip x l1 l2 : subseq l1 l2 -> subseq l1 (x :: l2)
  | subseq_keep x l1 l2 : subseq l1 l2 -> subseq (x :: l1) (x :: l2).

(** The order in which a complete walk reaches the entries: the entries
    below each sub-directory first, then the directories of the level, then
    its files. *)
Fixpoint subdirs_order (order : path -> node -> list path) (root : path)
  (l : entries) : list path :=
  match l with
  | [] => []
  | (name, child) :: l' =>
      (order (root ++ [name]) child ++ subdirs_order order root l')%list
  end.

Fixpoint walk_order (root : path) (n : node) {struct n} : list path :=
  match n with
  | File _ => []
  | Dir es =>
      (subdirs_order walk_order root es
       ++ map (fun name => root ++ [name]) (dir_names es)
       ++ map (fun name => root ++ [name]) (file_names es))%list
  end.

Fixpoint distinct (l : list string) : bool :=
  match l with
  | [] => true
  | x :: l' => negb (existsb (String.eqb x) l') && distinct l'
  end.

(** No directory lists a name twice. *)
Fixpoint well_formed (n : node) : bool :=
  match n with
  | File _ => true
  | Dir es =>
      distinct (names es)
      && forallb (fun e => match e with (_, child) => well_formed child end) es
  end.

(** The names of one directory do not clash under the renaming: they are
    distinct, so are their new names, and the new name of an entry that is
    renamed is not a name of the listing. *)
Definition level_clash_free (l : list string) : bool :=
  distinct l && distinct (map replace_content l)
  && forallb (fun n => String.eqb (replace_content n) n
                       || negb (existsb (String.eqb (replace_content n)) l)) l.

Fixpoint clash_free (n : node) : bool :=
  match n with
  | File _ => true
  | Dir es =>
      level_clash_free (names es)
      && forallb (fun e => match e with (_, child) => clash_free child end) es
  end.

(** What the content step leaves in a file with content [c]. *)
Definition rewrite (cd : codec) (c : bytes) : bytes :=
  if text_readable cd c then
    match read_utf8 cd c with
    | Some content =>
        if negb (String.eqb (replace_content content) content)
        then write_utf8 cd (replace_content content)
        else c
    | None => c
    end
  else c.

(** The tree with every name replaced and every file rewritten. *)
Fixpoint transform (cd : codec) (n : node) : node :=
  match n with
  | File c => File (rewrite cd c)
  | Dir es =>
      Dir (map (fun e => match e with
                         | (name, child) => (replace_content name, transform cd child)
                         end) es)
  end.

(** A codec for examples: a file is text when all its bytes are below 128. *)
Definition ascii_only (c : bytes) : bool :=
  forallb (fun b => Nat.ltb (Byte.to_nat b) 128) c.

Definition ascii_codec : codec := {|
  text_readable := ascii_only;
  read_utf8 := fun c => if ascii_only c then Some (string_of_list_byte c) else None;
  write_utf8 := list_byte_of_string
|}.

(** [p] names an entry of the directory [root]. *)
Definition at_level (root p : path) : Prop := exists x, p = (root ++ [x])%list.

(** Every path the trace mentions satisfies [S]. *)
Definition in_scope (S : path -> Prop) (tr : list event) : Prop :=
  forall e, In e tr -> forall p, In p (paths_of e) -> S p.

(** No event of the trace mentions a path strictly below [d]. *)
Definition untouched_below (d : path) (tr : list event) : Prop :=
  in_scope (fun p => ~ below d p) tr.

(** After each call of [os.rename] on a path, nothing below that path is
    touched any more. *)
Fixpoint ordered (tr : list event) : Prop :=
  match tr with
  | [] => True
  | e :: tr' =>
      match e with
      | Rename d _ => untouched_below d tr'
      | _ => True
      end /\ ordered tr'
  end.

(** [l1] starts [l2]. *)
Definition prefix_of {A : Type} (l1 l2 : list A) : Prop := exists r, l2 = (l1 ++ r)%list.

(** The entries visited by a run are an initial part of [full], and all of
    [full] when the run completes. *)
Definition tracks {A : Type} (m : list event * res A) (full : list path) : Prop :=
  prefix_of (visited (fst m)) full /\
  (forall a, snd m = Ok a -> visited (fst m) = full).

(** What the content step makes of an entry. *)
Definition finish (cd : codec) (x : node) : node :=
  match x with
  | File c => File (rewrite cd c)
  | Dir d => Dir d
  end.

(** An entry of a listing once its sub-directory has been walked. *)
Definition walked (cd : codec) (e : string * node) : string * node :=
  match e with
  | (name, Dir d) => (name, transform cd (Dir d))
  | (name, File c) => (name, File c)
  end.

Definition mem (x : string) (l : list string) : bool := existsb (String.eqb x) l.

(** The listing [es] while the loops of a level run: the entries whose names
    are in [done] have been processed, the others are as the scan found
    them. *)
Definition step_entry (cd : codec) (done : list string) (e : string * node)
  : string * node :=
  if mem (fst e) done then (replace_content (fst e), finish cd (snd e)) else e.

Definition level_state (cd : codec) (es : entries) (done : list string) : entries :=
  map (step_entry cd done) es.

(** The same listing when the entry [x] has just been renamed. *)
Definition renamed_state (cd : codec) (es : entries) (done : list string) (x : string)
  : entries :=
  map (fun e => if String.eqb (fst e) x then (replace_content x, snd e)
                else step_entry cd done e) es.

(** What is renamed, and to what: every call of [os.rename] is on a visited
    entry whose name the substitution pass changes, with the new name as
    target; and every visited entry whose name changes is renamed. *)
Definition rename_discipline (tr : list event) : Prop :=
  (forall old new, In (Rename old new) tr ->
     exists root name,
       old = (root ++ [name])%list /\ new = (root ++ [replace_content name])%list /\
       replace_content name <> name /\
       (In (VisitDir old) tr \/ In (VisitFile old) tr)) /\
  (forall root name,
     In (VisitDir (root ++ [name])%list) tr \/ In (VisitFile (root ++ [name])%list) tr ->
     replace_content name <> name ->
     In (Rename (root ++ [name])%list (root ++ [replace_content name])%list) tr).

(** Every write replaces a content that reads as text, by the substitution
    of that text. *)
Definition writes_text_only (cd : codec) (tr : list event) : Prop :=
  forall p before after, In (Write p before after) tr ->
    text_readable cd before = true /\
    exists content, read_utf8 cd before = Some content /\
                    replace_content content <> content /\
                    after = write_utf8 cd (replace_content content).

(** The result of the walk on a tree without clashes: a directory is
    transformed, a plain file given as the root is left alone. *)
Definition transformed (cd : codec) (n : node) : node :=
  match n with
  | Dir _ => transform cd n
  | File _ => n
  end.

(* ------------------------------------------------------------------ *)
(** ** The work of one visit *)

(** What happens between the start of a visit and the start of the next
    one, read off the trace: [os.rename] is called at most once, on the
    entry being visited and before anything is written; a content is
    written at most once, during the visit of a file, at the path the entry
    has by then.  [cur] is the path of the entry being visited, if any;
    [is_file] tells whether it was listed as a file; [renamed] and [written]
    tell what the visit has done so far. *)
Fixpoint one_pass (cur : option path) (is_file renamed written : bool)
  (tr : list event) : bool :=
  match tr with
  | [] => true
  | VisitDir p :: tr' => one_pass (Some p) false false false tr'
  | VisitFile p :: tr' => one_pass (Some p) true false false tr'
  | Rename old new :: tr' =>
      match cur with
      | Some p =>
          path_eqb old p && negb renamed && negb written
          && one_pass (Some new) is_file true written tr'
      | None => false
      end
  | Write p _ _ :: tr' =>
      match cur with
      | Some q =>
          path_eqb p q && is_file && negb written
          && one_pass cur is_file renamed true tr'
      | None => false
      end
  | Say _ :: tr' => one_pass cur is_file renamed written tr'
  end.

(** Every visit of the trace renames at most once and writes at most once,
    and nothing is renamed or written outside a visit. *)
Definition one_pass_per_visit (tr : list event) : bool :=
  one_pass None false false false tr.

(** The trace is empty or starts with a visit. *)
Definition starts_with_visit (tr : list event) : Prop :=
  match tr with
  | [] | VisitDir _ :: _ | VisitFile _ :: _ => True
  | _ => False
  end.

(* ------------------------------------------------------------------ *)
(** ** Calls to the outside world and the steps of a run *)

(** The operations on the remote host, on git and on the local disk that the
    two programs call. *)
Inductive call : Type :=
  | GetOrganization (org : string)
  | GetRepo (name : string)
  | DeleteRepo (name : string)
  | Sleep (seconds : nat)
  | CreateRepo (name : string)
  | PathExists (p : path)
  | Rmtree (p : path)
  | CloneFrom (url : string) (dest : path)
  | RepoInit (p : path)
  | RepoOpen (p : path)
  | IsDirty
  | GitAddAll
  | GitCommit (msg : string)
  | GetRemote (name : string)
  | SetUrl (url : string)
  | CreateRemote (name url : string)
  | ActiveBranch
  | GitCheckoutNew (branch : string)
  | GitPush (args : list string)
  | RemotePush
  | AddToCollaborators (user permission : string)
  | RunCommand (command : string).

(** A step of a run: a call, or an event on the working copy (a [Say] event
    for each line printed). *)
Inductive step : Type :=
  | Call (c : call)
  | Local (e : event).

(** How a piece of a function body ends: with a value, by [return], or by an
    exception. *)
Inductive outcome (A : Type) : Type :=
  | Val (a : A)
  | Returned
  | Raised (e : exn).
Arguments Val {A} a.
Arguments Returned {A}.
Arguments Raised {A} e.

(** A computation: the steps taken, and how it ended. *)
Definition M (A : Type) : Type := (list step * outcome A)%type.

Definition ret {A : Type} (a : A) : M A := ([], Val a).

Definition return_ {A : Type} : M A := ([], Returned).

Definition bind {A B : Type} (m : M A) (k : A -> M B) : M B :=
  match m with
  | (tr, Val a) => let (tr', o) := k a in ((tr ++ tr')%list, o)
  | (tr, Returned) => (tr, Returned)
  | (tr, Raised e) => (tr, Raised e)
  end.

Notation "x <- m ;; k" := (bind m (fun x => k))
  (at level 61, m at next level, right associativity).
Notation "m ;; k" := (bind m (fun _ => k))
  (at level 61, right associativity).

(** A call whose answer [r] the outside world decides. *)
Definition perform {A : Type} (c : call) (r : res A) : M A :=
  ([Call c], match r with Ok a => Val a | Raise e => Raised e end).

Definition say (m : message) : M unit := ([Local (Say m)], Val tt).

(** [try: m except E: handler], where [E] is the class [handles]. *)
Definition try_except {A : Type} (m : M A) (handles : exn -> bool)
  (handler : exn -> M A) : M A :=
  match m with
  | (tr, Raised e) =>
      if handles e then let (tr', o) := handler e in ((tr ++ tr')%list, o)
      else (tr, Raised e)
  | _ => m
  end.

(** A run of the tree transformer as part of a larger run. *)
Definition local_run {A : Type} (r : list event * res A) : M A :=
  (map Local (fst r), match snd r with Ok a => Val a | Raise e => Raised e end).

Definition is_GithubException (e : exn) : bool :=
  match e with GithubException => true | _ => false end.
Definition is_GitCommandError (e : exn) : bool :=
  match e with GitCommandError => true | _ => false end.
Definition is_ValueError (e : exn) : bool :=
  match e with ValueError => true | _ => false end.
Definition is_TypeError (e : exn) : bool :=
  match e with TypeError => true | _ => false end.
Definition is_Exception (e : exn) : bool := true.

(** The steps that change something, on the remote host or on the disk. *)
Definition changes_state (s : step) : bool :=
  match s with
  | Call (GetOrganization _) | Call (GetRepo _) | Call (Sleep _)
  | Call (PathExists _) | Call (RepoOpen _) | Call IsDirty
  | Call (GetRemote _) | Call ActiveBranch => false
  | Call _ => true
  | Local (Rename _ _) | Local (Write _ _ _) => true
  | Local _ => false
  end.

(* ------------------------------------------------------------------ *)
(** ** [gen_repos.py]: [process_repo] *)

Module GenRepos.

(** The source repository object: [repo.name] and [repo.clone_url]. *)
Record repository : Type := {
  name : string;
  clone_url : string
}.

(** The answers of the outside world during one run of [process_repo], one
    field per call site; [push_result] is indexed by the attempt. *)
Record world : Type := {
  get_organization_result : res unit;
  get_repo_result : res unit;
  delete_result : res unit;
  create_repo_result : res unit;
  local_path_exists : bool;
  rmtree_result : res unit;
  clone_result : res node;
  git_dir_rmtree_result : res unit;
  text_codec : codec;
  init_result : res unit;
  add_result : res unit;
  commit_result : res unit;
  remote_result : res unit;
  set_url_result : res unit;
  create_remote_result : res unit;
  active_branch_result : res string;
  checkout_result : res unit;
  push_result : nat -> res unit;
  get_repo_again_result : res unit;
  add_to_collaborators_result : res unit
}.

(** The tree without its [.git] directory. *)
Definition without_git_dir (tree : node) : node :=
  match tree with
  | Dir es => Dir (filter (fun e => negb (String.eqb (fst e) ".git")) es)
  | File c => File c
  end.

Definition git_dir_exists (tree : node) : bool :=
  match find tree [".git"] with Some _ => true | None => false end.

Section ProcessRepo.

Variable w : world.
Variables (repo : repository) (github_token target_org_name local_dir : string).
Variable reprocess : bool.

Definition new_repo_name : string := camel_to_kebab (replace_content (name repo)).

Definition local_repo_path : path := [local_dir; new_repo_name].

Definition new_remote_url : string :=
  "https://" ++ github_token ++ "@github.com/" ++ target_org_name ++ "/"
  ++ new_repo_name ++ ".git".

(** From the start of [process_repo] to the choice of the branch to push. *)
Definition prepare : M string :=
  say (OriginalAndNewName (name repo) new_repo_name) ;;
  perform (GetOrganization target_org_name) (get_organization_result w) ;;
  (* Check if the repository exists in the target organization *)
  try_except
    (perform (GetRepo new_repo_name) (get_repo_result w) ;;
     (if negb reprocess
      then say (AlreadyExistsSkipping new_repo_name) ;; return_
      else ret tt) ;;
     say (ExistsReprocessing new_repo_name) ;;
     perform (DeleteRepo new_repo_name) (delete_result w) ;;
     perform (Sleep 5) (Ok tt))
    is_GithubException
    (fun _ => say (DoesNotExistCreating new_repo_name)) ;;
  (* Create the repository in the target organization *)
  try_except
    (perform (CreateRepo new_repo_name) (create_repo_result w) ;;
     say (CreatedRepository new_repo_name) ;;
     perform (Sleep 5) (Ok tt))
    is_GithubException
    (fun _ => say (ErrorCreating new_repo_name) ;; return_) ;;
  present <- perform (PathExists local_repo_path) (Ok (local_path_exists w)) ;;
  (if present then perform (Rmtree local_repo_path) (rmtree_result w) else ret tt) ;;
  tree <- perform (CloneFrom (clone_url repo) local_repo_path) (clone_result w) ;;
  (* Remove the .git directory *)
  has_git <- perform (PathExists (local_repo_path ++ [".git"])%list)
               (Ok (git_dir_exists tree)) ;;
  tree <- (if has_git
           then perform (Rmtree (local_repo_path ++ [".git"])%list)
                  (git_dir_rmtree_result w) ;;
                ret (without_git_dir tree)
           else ret tree) ;;
  local_run (process_directory (text_codec w) local_repo_path tree) ;;
  (* Initialize new git repository *)
  perform (RepoInit local_repo_path) (init_result w) ;;
  perform GitAddAll (add_result w) ;;
  perform (GitCommit "Update content and rename") (commit_result w) ;;
  try_except
    (perform (GetRemote "origin") (remote_result w) ;;
     perform (SetUrl new_remote_url) (set_url_result w))
    is_ValueError
    (fun _ => perform (CreateRemote "origin" new_remote_url) (create_remote_result w)) ;;
  (* Get the current branch name *)
  try_except
    (perform ActiveBranch (active_branch_result w))
    is_TypeError
    (fun _ => perform (GitCheckoutNew "main") (checkout_result w) ;; ret "main").

(** [for attempt in range(3)]: the value tells whether the loop was left by
    [break]. *)
Fixpoint push_loop (current_branch : string) (attempts : list nat) : M unit :=
  match attempts with
  | [] => ret tt
  | attempt :: rest =>
      pushed <-
        try_except
          (perform (GitPush ["--force"; "--set-upstream"; "origin"; current_branch])
             (push_result w attempt) ;;
           say (SuccessfullyPushed current_branch new_repo_name) ;;
           ret true)
          is_GitCommandError
          (fun _ =>
             if Nat.eqb attempt 2
             then say (ErrorPushing new_repo_name) ;; return_
             else say PushFailedRetrying ;; perform (Sleep 5) (Ok tt) ;; ret false) ;;
      if pushed then ret tt else push_loop current_branch rest
  end.

(** From the push to the end of [process_repo]. *)
Definition push_and_grant (current_branch : string) : M unit :=
  (* Push to the new repository with retry logic *)
  push_loop current_branch (seq 0 3) ;;
  try_except
    (perform (GetRepo new_repo_name) (get_repo_again_result w) ;;
     perform (AddToCollaborators "chenxingqiang" "admin") (add_to_collaborators_result w) ;;
     say (AddedCollaborator new_repo_name))
    is_Exception
    (fun _ => say (ErrorAddingCollaborator new_repo_name)) ;;
  say (ProcessedAndPushed new_repo_name).

Definition process_repo : M unit :=
  current_branch <- prepare ;;
  push_and_grant current_branch.

End ProcessRepo.

End GenRepos.

(* ------------------------------------------------------------------ *)
(** ** [re_in_repos.py]: [process_repo] *)

Module ReInRepos.

(** The answers of the outside world during one run of [process_repo]. *)
Record world : Type := {
  get_organization_result : res unit;
  local_path_exists : bool;
  repo_open_result : res unit;
  is_dirty_result : res bool;
  clone_result : res unit;
  command_succeeds : string -> bool;
  repo_reopen_result : res unit;
  add_result : res unit;
  commit_result : res unit;
  remote_result : res unit;
  push_result : res unit
}.

Section ProcessRepo.

Variable w : world.

(** [run_command]: the command line is run by a shell; a non-zero return
    code is reported and otherwise ignored. *)
Definition run_command (command : string) : M unit :=
  succeeded <- perform (RunCommand command) (Ok (command_succeeds w command)) ;;
  if negb succeeded
  then say (ErrorExecutingCommand command) ;; say (ErrorMessage command)
  else ret tt.

(** [is_repo_clean]: [not Repo(repo_path).is_dirty()]. *)
Definition is_repo_clean (repo_path : string) : M bool :=
  perform (RepoOpen [repo_path]) (repo_open_result w) ;;
  dirty <- perform IsDirty (is_dirty_result w) ;;
  ret (negb dirty).

Definition rename_and_replace (repo_path old_str new_str : string) : M unit :=
  let rename_cmd :=
    "find " ++ repo_path ++ " -depth -name '*" ++ old_str
    ++ "*' -execdir rename 's/" ++ old_str ++ "/" ++ new_str ++ "/g' '{}' +" in
  run_command rename_cmd ;;
  let replace_cmd :=
    "grep -rl '" ++ old_str ++ "' " ++ repo_path ++ " | xargs sed -i 's/"
    ++ old_str ++ "/" ++ new_str ++ "/g'" in
  run_command replace_cmd.

Definition process_repo (repo_name old_str new_str github_token org_name : string)
  : M unit :=
  perform (GetOrganization org_name) (get_organization_result w) ;;
  let local_path := "./" ++ repo_name in
  present <- perform (PathExists [local_path]) (Ok (local_path_exists w)) ;;
  (if present then
     say (LocalRepositoryFound repo_name) ;;
     clean <- is_repo_clean local_path ;;
     if negb clean
     then say (UncommittedChangesSkipping repo_name) ;; return_
     else ret tt
   else
     say (CloningRepository repo_name) ;;
     let repo_url := "https://github.com/" ++ org_name ++ "/" ++ repo_name ++ ".git" in
     perform (CloneFrom repo_url [local_path]) (clone_result w)) ;;
  say (ProcessingRepository repo_name) ;;
  rename_and_replace local_path old_str new_str ;;
  perform (RepoOpen [local_path]) (repo_reopen_result w) ;;
  perform GitAddAll (add_result w) ;;
  perform (GitCommit ("Replace '" ++ old_str ++ "' with '" ++ new_str ++ "'"))
    (commit_result w) ;;
  perform (GetRemote "origin") (remote_result w) ;;
  perform RemotePush (push_result w) ;;
  say (ChangesPushed repo_name).

End ProcessRepo.

End ReInRepos.

(* ------------------------------------------------------------------ *)
(** ** Notions used to state the properties of the pipelines *)

(** No step of the run satisfies [c]. *)
Definition avoids {A : Type} (c : step -> bool) (m : M A) : Prop :=
  forallb (fun s => negb (c s)) (fst m) = true.

Definition is_grant (s : step) : bool :=
  match s with
  | Call (AddToCollaborators _ _) => true
  | _ => false
  end.

(** The steps of one failed push attempt that is retried. *)
Definition failed_attempt (current_branch : string) : list step :=
  [Call (GitPush ["--force"; "--set-upstream"; "origin"; current_branch]);
   Local (Say PushFailedRetrying); Call (Sleep 5)].

(** Worlds for examples. *)
Definition example_tree : node :=
  Dir [(".git", Dir [("HEAD", File [])]);
       ("BioTools.md", File (list_byte_of_string "see bio.tools"))].

Definition friendly_world (pushes : nat -> res unit) : GenRepos.world := {|
  GenRepos.get_organization_result := Ok tt;
  GenRepos.get_repo_result := Raise GithubException;
  GenRepos.delete_result := Ok tt;
  GenRepos.create_repo_result := Ok tt;
  GenRepos.local_path_exists := false;
  GenRepos.rmtree_result := Ok tt;
  GenRepos.clone_result := Ok example_tree;
  GenRepos.git_dir_rmtree_result := Ok tt;
  GenRepos.text_codec := ascii_codec;
  GenRepos.init_result := Ok tt;
  GenRepos.add_result := Ok tt;
  GenRepos.commit_result := Ok tt;
  GenRepos.remote_result := Raise ValueError;
  GenRepos.set_url_result := Ok tt;
  GenRepos.create_remote_result := Ok tt;
  GenRepos.active_branch_result := Ok "master";
  GenRepos.checkout_result := Ok tt;
  GenRepos.push_result := pushes;
  GenRepos.get_repo_again_result := Ok tt;
  GenRepos.add_to_collaborators_result := Ok tt
|}.

Definition existing_target_world : GenRepos.world := {|
  GenRepos.get_organization_result := Ok tt;
  GenRepos.get_repo_result := Ok tt;
  GenRepos.delete_result := Ok tt;
  GenRepos.create_repo_result := Ok tt;
  GenRepos.local_path_exists := true;
  GenRepos.rmtree_result := Ok tt;
  GenRepos.clone_result := Ok example_tree;
  GenRepos.git_dir_rmtree_result := Ok tt;
  GenRepos.text_codec := ascii_codec;
  GenRepos.init_result := Ok tt;
  GenRepos.add_result := Ok tt;
  GenRepos.commit_result := Ok tt;
  GenRepos.remote_result := Ok tt;
  GenRepos.set_url_result := Ok tt;
  GenRepos.create_remote_result := Ok tt;
  GenRepos.active_branch_result := Ok "main";
  GenRepos.checkout_result := Ok tt;
  GenRepos.push_result := fun _ => Ok tt;
  GenRepos.get_repo_again_result := Ok tt;
  GenRepos.add_to_collaborators_result := Ok tt
|}.

Definition example_repo : GenRepos.repository := {|
  GenRepos.name := "BioToolsSchema";
  GenRepos.clone_url := "https://github.com/bio-tools/BioToolsSchema.git"
|}.

Definition dirty_world : ReInRepos.world := {|
  ReInRepos.get_organization_result := Ok tt;
  ReInRepos.local_path_exists := true;
  ReInRepos.repo_open_result := Ok tt;
  ReInRepos.is_dirty_result := Ok true;
  ReInRepos.clone_result := Ok tt;
  ReInRepos.command_succeeds := fun _ => true;
  ReInRepos.repo_reopen_result := Ok tt;
  ReInRepos.add_result := Ok tt;
  ReInRepos.commit_result := Ok tt;
  ReInRepos.remote_result := Ok tt;
  ReInRepos.push_result := Ok tt
|}.

(* ------------------------------------------------------------------ *)
(** ** Proof tactics *)

(** Settle a statement about one character by trying all 256 of them. *)
Ltac each_char c :=
  let b0 := fresh in let b1 := fresh in let b2 := fresh in let b3 := fresh in
  let b4 := fresh in let b5 := fresh in let b6 := fresh in let b7 := fresh in
  destruct c as [b0 b1 b2 b3 b4 b5 b6 b7];
  destruct b0, b1, b2, b3, b4, b5, b6, b7; vm_compute; reflexivity.

(** Show that every path mentioned by an explicit list of events is in
    scope, given the lemmas for an event in front, for a path of the level,
    and for the empty trace. *)
Ltac scope_paths_with on_cons on_join on_nil :=
  repeat (apply on_cons;
          [let Hp := fresh "Hp" in
           simpl; intros ? Hp;
           repeat (destruct Hp as [<-|Hp]; [try apply on_join|]);
           try contradiction|]);
  try apply on_nil.

(* ================================================================== *)
(** * Properties of the rule engine *)

Section StringFacts.

Lemma startswith_refl (w s : string) : startswith w (w ++ s) = true.
Proof.
  induction w as [|a w IH]; simpl; [reflexivity|].
  now rewrite Ascii.eqb_refl.
Qed.

Lemma startswith_cons (a c : ascii) (w s : string) :
  startswith (String a w) (String c s) = true <-> a = c /\ startswith w s = true.
Proof.
  simpl. rewrite andb_true_iff, Ascii.eqb_eq. tauto.
Qed.

Lemma contains_cons (w : string) (c : ascii) (s : string) :
  contains w (String c s) = startswith w (String c s) || contains w s.
Proof. reflexivity. Qed.

Lemma contains_startswith (w s : string) :
  startswith w s = true -> contains w s = true.
Proof.
  intros H. destruct s; simpl in *; rewrite H; reflexivity.
Qed.

Lemma contains_drop (w : string) (k : nat) (s : string) :
  contains w (drop k s) = true -> contains w s = true.
Proof.
  revert s. induction k as [|k IH]; intros s H; [exact H|].
  destruct s as [|c s]; [exact H|].
  rewrite contains_cons. simpl in H. rewrite (IH _ H). apply orb_true_r.
Qed.

Lemma contains_drop_false (w : string) (k : nat) (s : string) :
  contains w s = false -> contains w (drop k s) = false.
Proof.
  intros H. destruct (contains w (drop k s)) eqn:E; [|reflexivity].
  apply contains_drop in E. congruence.
Qed.

Lemma startswith_app_drop (a w s : string) :
  startswith (a ++ w) s = true -> startswith w (drop (String.length a) s) = true.
Proof.
  revert s. induction a as [|x a IH]; intros s H; [exact H|].
  destruct s as [|c s]; [discriminate|].
  simpl in H. apply andb_true_iff in H as [_ H]. simpl. now apply IH.
Qed.

(** An occurrence of [a ++ w] contains an occurrence of [w]. *)
Lemma contains_app_r (a w s : string) :
  contains (a ++ w) s = true -> contains w s = true.
Proof.
  induction s as [|c s IH]; intros H.
  - apply contains_startswith.
    replace "" with (drop (String.length a) "") by (destruct a; reflexivity).
    apply startswith_app_drop.
    simpl in H. now rewrite orb_false_r in H.
  - rewrite contains_cons in H. apply orb_true_iff in H as [H|H].
    + apply (contains_drop w (String.length a)).
      apply contains_startswith. now apply startswith_app_drop.
    + rewrite contains_cons, (IH H). apply orb_true_r.
Qed.

Lemma has_char_cons (x c : ascii) (s : string) :
  has_char x (String c s) = Ascii.eqb x c || has_char x s.
Proof. reflexivity. Qed.

(** A word whose first character does not occur in [r] cannot start
    inside [r]. *)
Lemma contains_app_foreign (w0 : ascii) (w r t : string) :
  has_char w0 r = false ->
  contains (String w0 w) (r ++ t) = contains (String w0 w) t.
Proof.
  induction r as [|c r IH]; intros H; [reflexivity|].
  rewrite has_char_cons in H. apply orb_false_iff in H as [Hc Hr].
  change (String c r ++ t) with (String c (r ++ t)).
  rewrite contains_cons. simpl startswith. rewrite Hc. simpl. now apply IH.
Qed.

Lemma startswith_app_inv (w r t : string) :
  startswith w (r ++ t) = true -> startswith w r = true \/ startswith r w = true.
Proof.
  revert r. induction w as [|a w IH]; intros r H; [now left|].
  destruct r as [|c r]; [now right|].
  change (String c r ++ t) with (String c (r ++ t)) in H.
  apply startswith_cons in H as [-> H].
  destruct (IH _ H) as [H'|H']; [left|right]; simpl; now rewrite Ascii.eqb_refl.
Qed.

Lemma contains_app_no_start (w r t : string) :
  no_start_inside w r = true -> contains w (r ++ t) = contains w t.
Proof.
  induction r as [|c r IH]; intros H; [reflexivity|].
  cbn [no_start_inside] in H. apply andb_true_iff in H as [H1 H2].
  apply negb_true_iff, orb_false_iff in H1 as [Ha Hb].
  change (String c r ++ t) with (String c (r ++ t)).
  rewrite contains_cons, (IH H2).
  destruct (startswith w (String c (r ++ t))) eqn:E; [|reflexivity].
  apply (startswith_app_inv w (String c r) t) in E. destruct E; congruence.
Qed.

End StringFacts.

Section SubScan.

Variables (p0 : ascii) (p' : string) (r0 : ascii) (r' : string).
Local Abbreviation pat := (String p0 p').
Local Abbreviation repl := (String r0 r').

Lemma sub_scan_skip (k : nat) (s : string) :
  sub_scan pat repl k s = sub_scan pat repl 0 (drop k s).
Proof.
  revert k. induction s as [|c s IH]; intros k.
  - destruct k; reflexivity.
  - destruct k as [|k]; [reflexivity|]. simpl drop. simpl sub_scan at 1. apply IH.
Qed.

Lemma sub_scan_match (s : string) :
  startswith pat s = true ->
  sub_scan pat repl 0 s = repl ++ sub_scan pat repl 0 (drop (String.length pat) s).
Proof.
  intros H. destruct s as [|c s]; [discriminate|].
  cbn [sub_scan]. rewrite H. rewrite sub_scan_skip. f_equal. f_equal.
  simpl. now rewrite Nat.sub_0_r.
Qed.

Lemma sub_scan_copy (c : ascii) (s : string) :
  startswith pat (String c s) = false ->
  sub_scan pat repl 0 (String c s) = String c (sub_scan pat repl 0 s).
Proof.
  intros H. cbn [sub_scan]. now rewrite H.
Qed.

(** Without an occurrence of the pattern the text is returned unchanged. *)
Lemma sub_scan_no_match (s : string) :
  contains pat s = false -> sub_scan pat repl 0 s = s.
Proof.
  induction s as [|c s IH]; intros H; [reflexivity|].
  rewrite contains_cons in H. apply orb_false_iff in H as [H1 H2].
  rewrite sub_scan_copy by exact H1. now rewrite IH.
Qed.

(** A word made of characters other than the first character of the
    replacement starts the output only if it starts the input. *)
Lemma startswith_sub_scan (u s : string) :
  has_char r0 u = false ->
  startswith u (sub_scan pat repl 0 s) = true -> startswith u s = true.
Proof.
  revert s. induction u as [|a u IH]; intros s Hu H; [reflexivity|].
  rewrite has_char_cons in Hu. apply orb_false_iff in Hu as [Ha Hu].
  destruct s as [|c s]; [discriminate|].
  destruct (startswith pat (String c s)) eqn:E.
  - rewrite (sub_scan_match _ E) in H.
    change (repl ++ ?t) with (String r0 (r' ++ t)) in H.
    apply startswith_cons in H as [-> _]. now rewrite Ascii.eqb_refl in Ha.
  - rewrite (sub_scan_copy _ _ E) in H.
    apply startswith_cons in H as [-> H]. apply startswith_cons. split; [reflexivity|].
    now apply IH.
Qed.

Variables (w0 : ascii) (w' : string).
Local Abbreviation w := (String w0 w').

Hypothesis repl_foreign : has_char r0 w = false.
Hypothesis word_foreign : has_char w0 repl = false.

(** The substitution creates no occurrence of [w]. *)
Lemma sub_scan_keeps_out (s : string) :
  contains w s = false -> contains w (sub_scan pat repl 0 s) = false.
Proof.
  remember (String.length s) as n eqn:Hn.
  revert s Hn. induction n as [n IH] using lt_wf_ind. intros s Hn Hs.
  destruct s as [|c s]; [reflexivity|].
  destruct (startswith pat (String c s)) eqn:E.
  - rewrite (sub_scan_match _ E).
    rewrite contains_app_foreign by exact word_foreign.
    apply (IH (String.length (drop (String.length pat) (String c s)))); [|reflexivity|].
    + subst n. simpl. clear. generalize (String.length p'). intros k.
      revert k. induction s as [|d s IHs]; intros k; destruct k; simpl; try lia.
      specialize (IHs k). lia.
    + now apply contains_drop_false.
  - rewrite (sub_scan_copy _ _ E). rewrite contains_cons.
    rewrite contains_cons in Hs. apply orb_false_iff in Hs as [Hs1 Hs2].
    apply orb_false_iff. split.
    + destruct (startswith w (String c (sub_scan pat repl 0 s))) eqn:F; [|reflexivity].
      rewrite <- (sub_scan_copy _ _ E) in F.
      apply startswith_sub_scan in F; [congruence | exact repl_foreign].
    + apply (IH (String.length s)); [subst n; simpl; lia | reflexivity | exact Hs2].
Qed.

End SubScan.

Section SubScanRemoves.

Variables (p0 : ascii) (p' : string) (r0 : ascii) (r' : string).
Local Abbreviation pat := (String p0 p').
Local Abbreviation repl := (String r0 r').

Hypothesis repl_foreign : has_char r0 pat = false.
Hypothesis no_restart : no_start_inside pat repl = true.

Lemma length_drop_lt (k : nat) (c : ascii) (s : string) :
  String.length (drop (S k) (String c s)) < String.length (String c s).
Proof.
  simpl. revert k. induction s as [|d s IH]; intros k; destruct k; simpl; try lia.
  specialize (IH k). lia.
Qed.

(** After the substitution no occurrence of the pattern is left. *)
Lemma sub_scan_removes (s : string) :
  contains pat (sub_scan pat repl 0 s) = false.
Proof.
  remember (String.length s) as n eqn:Hn.
  revert s Hn. induction n as [n IH] using lt_wf_ind. intros s Hn.
  destruct s as [|c s]; [reflexivity|].
  destruct (startswith (String p0 p') (String c s)) eqn:E.
  - rewrite (sub_scan_match p0 p' r0 r' _ E).
    rewrite contains_app_no_start by exact no_restart.
    apply (IH (String.length (drop (String.length (String p0 p')) (String c s))));
      [|reflexivity].
    subst n. apply length_drop_lt.
  - rewrite (sub_scan_copy p0 p' r0 r' _ _ E). rewrite contains_cons.
    apply orb_false_iff. split.
    + destruct (startswith (String p0 p')
                  (String c (sub_scan (String p0 p') (String r0 r') 0 s))) eqn:F;
        [|reflexivity].
      rewrite <- (sub_scan_copy p0 p' r0 r' _ _ E) in F.
      apply startswith_sub_scan in F; [congruence | exact repl_foreign].
    + apply (IH (String.length s)); [subst n; simpl; lia | reflexivity].
Qed.

End SubScanRemoves.

(** A rule that keeps [w] out preserves the absence of [w]. *)
Lemma re_sub_keeps_out (w : string) (rule : string * string) (s : string) :
  rule_keeps_out w rule = true ->
  contains w s = false ->
  contains w (re_sub (fst rule) (snd rule) s) = false.
Proof.
  unfold rule_keeps_out, re_sub. destruct rule as [old new]. simpl fst. simpl snd.
  destruct (regex_literal old) as [|q0 q']; [discriminate|].
  destruct new as [|r0 r']; [discriminate|].
  destruct w as [|w0 w']; [discriminate|].
  intros H Hs. apply andb_true_iff in H as [H1 H2].
  apply negb_true_iff in H1, H2.
  now apply sub_scan_keeps_out.
Qed.

Lemma apply_rules_keeps_out (w : string) (rules : list (string * string)) (s : string) :
  forallb (rule_keeps_out w) rules = true ->
  contains w s = false ->
  contains w (apply_rules rules s) = false.
Proof.
  revert s. induction rules as [|[old new] rules IH]; intros s H Hs; [exact Hs|].
  simpl in H. apply andb_true_iff in H as [H1 H2].
  simpl. apply IH; [exact H2|].
  now apply (re_sub_keeps_out w (old, new)).
Qed.

Lemma apply_rules_app (rules1 rules2 : list (string * string)) (s : string) :
  apply_rules (rules1 ++ rules2)%list s = apply_rules rules2 (apply_rules rules1 s).
Proof.
  revert s. induction rules1 as [|[old new] rules1 IH]; intros s; [reflexivity|].
  simpl. apply IH.
Qed.

(** The first rule leaves no occurrence of "tools". *)
Lemma first_rule_removes_tools (s : string) :
  contains "tools" (re_sub "tools" "agents" s) = false.
Proof.
  unfold re_sub. simpl regex_literal. apply sub_scan_removes; reflexivity.
Qed.

(** No occurrence of ".tools" reaches the last rule. *)
Lemma no_dot_tools_before_last_rule (s : string) :
  contains ".tools" (apply_rules replacements_but_last s) = false.
Proof.
  change replacements_but_last
    with ([("tools", "agents")] ++ tl replacements_but_last)%list.
  rewrite apply_rules_app.
  apply apply_rules_keeps_out; [reflexivity|].
  simpl apply_rules.
  destruct (contains ".tools" (re_sub "tools" "agents" s)) eqn:E; [|reflexivity].
  apply (contains_app_r "." "tools") in E.
  now rewrite first_rule_removes_tools in E.
Qed.

(** C9, amended: the last rule ([bio\.tools] to [hub.bioagents.tech]) never
    fires.  For every input, the text that reaches it contains no occurrence
    of "bio.tools", indeed none of ".tools": the first rule removes every
    occurrence of "tools", and although a later rule can bring "tools" back,
    no rule can produce one that follows a dot.  So [replace_content] is
    extensionally equal to the same loop over the list without its last
    rule. *)
Theorem last_rule_never_fires (s : string) :
  contains "tools" (re_sub "tools" "agents" s) = false /\
  contains ".tools" (apply_rules replacements_but_last s) = false /\
  contains "bio.tools" (apply_rules replacements_but_last s) = false /\
  re_sub "bio\.tools" "hub.bioagents.tech" (apply_rules replacements_but_last s)
    = apply_rules replacements_but_last s /\
  replace_content s = apply_rules replacements_but_last s.
Proof.
  assert (Hdot := no_dot_tools_before_last_rule s).
  assert (Hbio : contains "bio.tools" (apply_rules replacements_but_last s) = false).
  { destruct (contains "bio.tools" (apply_rules replacements_but_last s)) eqn:E;
      [|reflexivity].
    apply (contains_app_r "bio" ".tools") in E. congruence. }
  assert (Hlast : re_sub "bio\.tools" "hub.bioagents.tech"
                    (apply_rules replacements_but_last s)
                  = apply_rules replacements_but_last s).
  { unfold re_sub. simpl regex_literal. apply sub_scan_no_match. exact Hbio. }
  split; [apply first_rule_removes_tools|].
  split; [exact Hdot|]. split; [exact Hbio|]. split; [exact Hlast|].
  unfold replace_content.
  change replacements
    with (replacements_but_last ++ [("bio\.tools", "hub.bioagents.tech")])%list.
  rewrite apply_rules_app. exact Hlast.
Qed.

(** C9 as stated fails: a replacement between the first and the last rule
    does bring "tools" back.  On "toolools" the first rule finds nothing, the
    third rewrites the leading "tool", and the text reaching the last rule,
    "agentools", contains "tools". *)
Lemma tools_reintroduced_before_last_rule :
  contains "tools" (re_sub "tools" "agents" "toolools") = false /\
  apply_rules replacements_but_last "toolools" = "agentools" /\
  contains "tools" (apply_rules replacements_but_last "toolools") = true.
Proof. repeat split. Qed.

(** C1: the rules are applied in their fixed sequence, the output of each
    feeding the next: running the whole list is running any initial segment
    and then the remaining rules on its result.  On "BioTools" the first rule
    finds nothing, the second ([Tools] to [Agents]) rewrites the trailing
    substring, the seventh ([BioTools] to [BioAgents]) receives a text without
    its pattern and leaves it as it is, and the final output is "BioAgents". *)
Theorem replace_content_sequential_BioTools :
  (forall (k : nat) (s : string),
      replace_content s
      = apply_rules (skipn k replacements) (apply_rules (firstn k replacements) s)) /\
  (forall (old new : string) (rest : list (string * string)) (s : string),
      apply_rules ((old, new) :: rest) s = apply_rules rest (re_sub old new s)) /\
  nth_error replacements 1 = Some ("Tools", "Agents") /\
  nth_error replacements 6 = Some ("BioTools", "BioAgents") /\
  apply_rules (firstn 1 replacements) "BioTools" = "BioTools" /\
  apply_rules (firstn 2 replacements) "BioTools" = "BioAgents" /\
  contains "BioTools" (apply_rules (firstn 6 replacements) "BioTools") = false /\
  apply_rules (firstn 7 replacements) "BioTools"
    = apply_rules (firstn 6 replacements) "BioTools" /\
  replace_content "BioTools" = "BioAgents".
Proof.
  split; [|repeat split].
  intros k s. unfold replace_content.
  rewrite <- (firstn_skipn k replacements) at 1. apply apply_rules_app.
Qed.

(* ================================================================== *)
(** * Properties of the name conversion *)

Lemma char_lower_not_AZ (c : ascii) : is_AZ (char_lower c) = false.
Proof. each_char c. Qed.

Lemma char_lower_idem (c : ascii) : char_lower (char_lower c) = char_lower c.
Proof. each_char c. Qed.

Lemma char_lower_hyphen (c : ascii) : Ascii.eqb "-" (char_lower c) = Ascii.eqb "-" c.
Proof. each_char c. Qed.

Lemma contains_hyphen_cons (c : ascii) (s : string) :
  contains "-" (String c s) = Ascii.eqb "-" c || contains "-" s.
Proof. rewrite contains_cons. simpl. now rewrite andb_true_r. Qed.

Lemma contains_hyphen_lower (s : string) :
  contains "-" (py_lower s) = contains "-" s.
Proof.
  induction s as [|c s IH]; [reflexivity|].
  simpl py_lower. rewrite !contains_hyphen_cons, IH, char_lower_hyphen. reflexivity.
Qed.

Lemma py_lower_idem (s : string) : py_lower (py_lower s) = py_lower s.
Proof.
  induction s as [|c s IH]; [reflexivity|]. simpl. now rewrite char_lower_idem, IH.
Qed.

Lemma py_lower_no_AZ (s : string) :
  all_chars (fun c => negb (is_AZ c)) (py_lower s) = true.
Proof.
  induction s as [|c s IH]; [reflexivity|]. simpl. now rewrite char_lower_not_AZ, IH.
Qed.

Lemma boundary_needs_AZ (prev c : ascii) (rest : string) :
  is_AZ c = false -> boundary prev c rest = false.
Proof. intros H. unfold boundary. rewrite H. now rewrite andb_false_r. Qed.

Lemma split_after_no_AZ (prev : ascii) (s : string) :
  all_chars (fun c => negb (is_AZ c)) s = true -> split_after prev s = (s, []).
Proof.
  revert prev. induction s as [|c s IH]; intros prev H; [reflexivity|].
  simpl in H. apply andb_true_iff in H as [Hc Hs]. apply negb_true_iff in Hc.
  simpl. rewrite (IH c Hs), (boundary_needs_AZ _ _ _ Hc). reflexivity.
Qed.

(** A name without a character of [[A-Z]] is not split. *)
Lemma pattern_split_no_AZ (s : string) :
  all_chars (fun c => negb (is_AZ c)) s = true -> pattern_split s = [s].
Proof.
  destruct s as [|c s]; intros H; [reflexivity|].
  simpl in H. apply andb_true_iff in H as [_ Hs].
  unfold pattern_split. now rewrite (split_after_no_AZ c s Hs).
Qed.

Lemma split_after_single (prev : ascii) (s cur : string) :
  split_after prev s = (cur, []) -> cur = s.
Proof.
  revert prev cur. induction s as [|c s IH]; intros prev cur H.
  - simpl in H. congruence.
  - simpl in H. destruct (split_after c s) as [cur' later] eqn:E.
    destruct (boundary prev c s); [discriminate|].
    injection H as <- ->. f_equal. now apply (IH c).
Qed.

(** When the split yields one part, that part is the whole name. *)
Lemma pattern_split_single (s p : string) : pattern_split s = [p] -> p = s.
Proof.
  destruct s as [|c s]; unfold pattern_split.
  - congruence.
  - destruct (split_after c s) as [cur later] eqn:E. intros H.
    injection H as <- ->. f_equal. now apply (split_after_single c).
Qed.

Lemma contains_app_mid (w a b : string) : contains w (a ++ w ++ b) = true.
Proof.
  induction a as [|c a IH].
  - change ("" ++ w ++ b) with (w ++ b). apply contains_startswith, startswith_refl.
  - change (String c a ++ w ++ b) with (String c (a ++ w ++ b)).
    rewrite contains_cons, IH. apply orb_true_r.
Qed.

(** Two parts or more are joined with at least one separator. *)
Lemma join_two_contains (sep p q : string) (l : list string) :
  contains sep (join sep (p :: q :: l)) = true.
Proof. cbn [join]. apply contains_app_mid. Qed.

(** C3: [camel_to_kebab] is idempotent. *)
Theorem camel_to_kebab_idempotent (x : string) :
  camel_to_kebab (camel_to_kebab x) = camel_to_kebab x.
Proof.
  unfold camel_to_kebab at 2 3.
  destruct (contains "-" x) eqn:Hx.
  - unfold camel_to_kebab. now rewrite Hx.
  - destruct (pattern_split x) as [|p [|q l]] eqn:E.
    + reflexivity.
    + apply pattern_split_single in E as Ep. subst p.
      cbn [map join]. unfold process_part at 1 2.
      destruct (negb (py_isupper x && Nat.ltb 1 (String.length x))) eqn:C.
      * unfold camel_to_kebab.
        rewrite contains_hyphen_lower, Hx.
        rewrite (pattern_split_no_AZ _ (py_lower_no_AZ x)).
        cbn [map join]. unfold process_part.
        rewrite py_lower_idem.
        destruct (negb (py_isupper (py_lower x) && _)); reflexivity.
      * unfold camel_to_kebab. rewrite Hx, E. cbn [map join].
        unfold process_part. now rewrite C.
    + cbn [map]. unfold camel_to_kebab. now rewrite join_two_contains.
Qed.

(** C4: the documented examples of [camel_to_kebab]: "FooBarBaz" becomes
    "foo-bar-baz"; "already-kebab", like every name that contains a hyphen,
    is returned unchanged; a part that is entirely upper-case and longer
    than one character is kept as it is, so "HTTPServer", split into "HTTP"
    and "Server", becomes "HTTP-server" with its leading acronym intact. *)
Theorem camel_to_kebab_examples :
  camel_to_kebab "FooBarBaz" = "foo-bar-baz" /\
  camel_to_kebab "already-kebab" = "already-kebab" /\
  (forall name : string, contains "-" name = true -> camel_to_kebab name = name) /\
  (forall part : string,
      py_isupper part = true -> 1 < String.length part -> process_part part = part) /\
  (forall name : string,
      contains "-" name = false ->
      camel_to_kebab name = join "-" (map process_part (pattern_split name))) /\
  pattern_split "HTTPServer" = ["HTTP"; "Server"] /\
  camel_to_kebab "HTTPServer" = "HTTP-server".
Proof.
  split; [reflexivity|]. split; [reflexivity|].
  split; [intros name H; unfold camel_to_kebab; now rewrite H|].
  split.
  { intros part Hu Hl. unfold process_part. rewrite Hu.
    apply Nat.ltb_lt in Hl. now rewrite Hl. }
  split; [intros name H; unfold camel_to_kebab; now rewrite H|].
  split; reflexivity.
Qed.

(** C4 on concrete names: a name with a hyphen, an acronym part, and a name
    without hyphen. *)
Lemma camel_to_kebab_examples_witness :
  contains "-" "bio-tools" = true /\ camel_to_kebab "bio-tools" = "bio-tools" /\
  py_isupper "HTTP" = true /\ 1 < String.length "HTTP" /\ process_part "HTTP" = "HTTP" /\
  contains "-" "FooBar" = false /\
  camel_to_kebab "FooBar" = join "-" (map process_part (pattern_split "FooBar")).
Proof.
  destruct camel_to_kebab_examples as (_ & _ & Hh & Hp & Hn & _).
  split; [reflexivity|]. split; [apply Hh; reflexivity|].
  split; [reflexivity|]. split; [simpl; lia|].
  split; [apply Hp; [reflexivity | simpl; lia]|].
  split; [reflexivity|]. apply Hn. reflexivity.
Defined.

(* ================================================================== *)
(** * Properties of the tree transformer *)

Local Open Scope list_scope.

Lemma path_eqb_join (root : path) (a b : string) :
  path_eqb (root ++ [a]) (root ++ [b]) = String.eqb a b.
Proof.
  unfold path_eqb. destruct (list_eq_dec string_dec (root ++ [a]) (root ++ [b])) as [E|E].
  - apply app_inv_head in E. injection E as ->. now rewrite String.eqb_refl.
  - destruct (String.eqb_spec a b) as [->|]; [now elim E | reflexivity].
Qed.

(** A property of traces, indexed by the directory being walked, that holds
    of the empty trace, of the trace of each loop iteration, of the
    concatenation of two traces that have it, and that passes from a
    sub-directory to its parent, holds of the trace of the whole walk. *)
Section TraceInduction.

Variable cd : codec.
Variable P : path -> list event -> Prop.

Hypothesis P_nil : forall root, P root [].
Hypothesis P_app : forall root a b, P root a -> P root b -> P root (a ++ b).
Hypothesis P_up : forall root name tr, P (root ++ [name]) tr -> P root tr.
Hypothesis P_dir : forall root name es, P root (fst (process_dir_name root name es)).
Hypothesis P_file : forall root name es, P root (fst (process_file_name cd root name es)).

Lemma for_each_trace (root : path) (body : string -> entries -> list event * res entries) :
  (forall x es, P root (fst (body x es))) ->
  forall l es, P root (fst (for_each body l es)).
Proof.
  intros Hb l. induction l as [|x l IH]; intros es; [apply P_nil|].
  simpl. specialize (Hb x es). destruct (body x es) as [tr [es'|e]]; [|exact Hb].
  specialize (IH es'). destruct (for_each body l es') as [tr' r]. simpl in *.
  now apply P_app.
Qed.

Lemma process_level_trace (root : path) (dirs files : list string) (es : entries) :
  P root (fst (process_level cd root dirs files es)).
Proof.
  unfold process_level.
  assert (Hd := for_each_trace root (process_dir_name root) (P_dir root) dirs es).
  destruct (for_each (process_dir_name root) dirs es) as [tr [es'|e]]; [|exact Hd].
  assert (Hf := for_each_trace root (process_file_name cd root) (P_file root) files es').
  destruct (for_each (process_file_name cd root) files es') as [tr' r]. simpl in *.
  now apply P_app.
Qed.

Lemma walk_subdirs_trace (root : path) (l : entries) :
  Forall (fun e => forall r, P r (fst (walk cd r (snd e)))) l ->
  P root (fst (walk_subdirs (walk cd) root l)).
Proof.
  induction 1 as [|[name child] l Hc _ IH]; [apply P_nil|].
  simpl in Hc. cbn [walk_subdirs]. destruct child as [c|es].
  - destruct (walk_subdirs (walk cd) root l) as [tr [r|e]]; exact IH.
  - specialize (Hc (root ++ [name])). apply P_up in Hc.
    destruct (walk cd (root ++ [name]) (Dir es)) as [tr1 [child'|e]]; [|exact Hc].
    destruct (walk_subdirs (walk cd) root l) as [tr2 [r|e]]; simpl in *; now apply P_app.
Qed.

Lemma walk_trace (n : node) : forall root, P root (fst (walk cd root n)).
Proof.
  induction n as [c|es IH] using node_induction; intros root; [apply P_nil|].
  cbn [walk].
  assert (Hs := walk_subdirs_trace root es IH).
  destruct (walk_subdirs (walk cd) root es) as [tr [es'|e]]; [|exact Hs].
  assert (Hl := process_level_trace root (dir_names es) (file_names es) es').
  destruct (process_level cd root (dir_names es) (file_names es) es') as [tr' [es''|e]];
    simpl in *; now apply P_app.
Qed.

End TraceInduction.

(** *** Names: what is renamed, and to what *)

Lemma rename_discipline_app (a b : list event) :
  rename_discipline a -> rename_discipline b -> rename_discipline (a ++ b)%list.
Proof.
  intros [A1 A2] [B1 B2]. split.
  - intros old new H. apply in_app_or in H as [H|H].
    + destruct (A1 _ _ H) as (r & n & ? & ? & ? & Hv). exists r, n.
      repeat split; try assumption. destruct Hv; [left|right]; apply in_or_app; now left.
    + destruct (B1 _ _ H) as (r & n & ? & ? & ? & Hv). exists r, n.
      repeat split; try assumption. destruct Hv; [left|right]; apply in_or_app; now right.
  - intros r n H Hne. apply in_or_app.
    destruct H as [H|H]; apply in_app_or in H as [H|H];
      solve [left; apply A2; auto | right; apply B2; auto].
Qed.

Lemma in_process_content_no_visit_rename (cd : codec) (p : path) (n : string)
  (es : entries) (e : event) :
  In e (fst (process_content cd p n es)) ->
  match e with VisitDir _ | VisitFile _ | Rename _ _ => False | _ => True end.
Proof.
  unfold process_content.
  destruct (negb (is_binary cd n es)).
  - destruct (lookup n es) as [[c|d]|]; simpl; try tauto.
    destruct (read_utf8 cd c) as [s|]; simpl.
    + destruct (negb (String.eqb (replace_content s) s)); simpl; intuition (subst; exact I).
    + intuition (subst; exact I).
  - simpl. intuition (subst; exact I).
Qed.

Lemma last_eq (root root' : path) (a b : string) :
  (root ++ [a])%list = (root' ++ [b])%list -> root = root' /\ a = b.
Proof. intros H. apply app_inj_tail in H. exact H. Qed.

Lemma rename_discipline_dir (root : path) (name : string) (es : entries) :
  rename_discipline (fst (process_dir_name root name es)).
Proof.
  unfold process_dir_name. rewrite path_eqb_join.
  destruct (String.eqb_spec name (replace_content name)) as [E|E]; simpl.
  - split.
    + intros old new [H|[]]. discriminate.
    + intros r n [[H|[]]|[H|[]]] Hne; try discriminate.
      injection H as H. apply last_eq in H as [_ ->]. now elim Hne.
  - assert (Hne : replace_content name <> name) by congruence.
    destruct (os_rename name (replace_content name) es) as [es'|e]; simpl; split.
    + intros old new [H|[H|[H|[]]]]; try discriminate.
      injection H as <- <-. exists root, name. repeat split; simpl; auto.
    + intros r n [[H|[H|[H|[]]]]|[H|[H|[H|[]]]]] _; try discriminate.
      injection H as H. apply last_eq in H as [-> ->]. right. now left.
    + intros old new [H|[H|[]]]; try discriminate.
      injection H as <- <-. exists root, name. repeat split; simpl; auto.
    + intros r n [[H|[H|[]]]|[H|[H|[]]]] _; try discriminate.
      injection H as H. apply last_eq in H as [-> ->]. right. now left.
Qed.

Lemma rename_discipline_file (cd : codec) (root : path) (name : string) (es : entries) :
  rename_discipline (fst (process_file_name cd root name es)).
Proof.
  unfold process_file_name. rewrite path_eqb_join.
  destruct (String.eqb_spec name (replace_content name)) as [E|E]; simpl.
  - assert (Hc := in_process_content_no_visit_rename cd
                    (root ++ [replace_content name]) (replace_content name) es).
    destruct (process_content cd (root ++ [replace_content name])
                (replace_content name) es) as [tr r]. simpl in *. split.
    + intros old new [H|H]; [discriminate|]. now apply Hc in H.
    + intros r' n [[H|H]|[H|H]] Hne; try discriminate; try (now apply Hc in H).
      injection H as H. apply last_eq in H as [_ ->]. now elim Hne.
  - assert (Hne : replace_content name <> name) by congruence.
    destruct (os_rename name (replace_content name) es) as [es'|e]; simpl.
    + assert (Hc := in_process_content_no_visit_rename cd
                      (root ++ [replace_content name]) (replace_content name) es').
      destruct (process_content cd (root ++ [replace_content name])
                  (replace_content name) es') as [tr r]. simpl in *. split.
      * intros old new [H|[H|[H|H]]]; try discriminate; try (now apply Hc in H).
        injection H as <- <-. exists root, name. repeat split; simpl; auto.
      * intros r' n [[H|[H|[H|H]]]|[H|[H|[H|H]]]] _;
          try discriminate; try (now apply Hc in H).
        injection H as H. apply last_eq in H as [-> ->]. right. now left.
    + split.
      * intros old new [H|[H|[]]]; try discriminate.
        injection H as <- <-. exists root, name. repeat split; simpl; auto.
      * intros r' n [[H|[H|[]]]|[H|[H|[]]]] _; try discriminate.
        injection H as H. apply last_eq in H as [-> ->]. right. now left.
Qed.

(** C2, amended: for every directory entry and every file entry the walk
    reaches, the new name is the result of the substitution pass alone
    ([replace_content]; the name conversion [camel_to_kebab] takes no part),
    and [os.rename] is called on the entry exactly when that name differs
    from the current one, with the new name as target. *)
Theorem entries_renamed_by_substitution_only (cd : codec) (dir_path : path) (tree : node) :
  let tr := fst (process_directory cd dir_path tree) in
  (forall old new, In (Rename old new) tr ->
     exists root name,
       old = (root ++ [name])%list /\ new = (root ++ [replace_content name])%list /\
       replace_content name <> name /\
       (In (VisitDir old) tr \/ In (VisitFile old) tr)) /\
  (forall root name,
     In (VisitDir (root ++ [name])) tr \/ In (VisitFile (root ++ [name])) tr ->
     replace_content name <> name ->
     In (Rename (root ++ [name]) (root ++ [replace_content name])) tr) /\
  (forall root name,
     In (VisitDir (root ++ [name])) tr \/ In (VisitFile (root ++ [name])) tr ->
     replace_content name = name ->
     forall new, ~ In (Rename (root ++ [name]) new) tr).
Proof.
  intros tr.
  assert (H : rename_discipline tr).
  { apply (walk_trace cd (fun _ => rename_discipline)).
    - split; [intros ? ? []|intros ? ? [[]|[]]].
    - intros _. apply rename_discipline_app.
    - auto.
    - apply rename_discipline_dir.
    - apply rename_discipline_file. }
  destruct H as [H1 H2]. split; [exact H1|]. split; [exact H2|].
  intros root name _ Heq new Hin.
  destruct (H1 _ _ Hin) as (r & n & E & _ & Hne & _).
  apply last_eq in E as [_ ->]. contradiction.
Qed.

(** C2 as stated fails: the name conversion is not applied to the entries of
    the tree.  For a directory and for a file called "FooBar" the conversion
    together with the substitution pass, in either order, gives "foo-bar",
    which differs from the current name, yet nothing is renamed. *)
Lemma entries_not_converted_to_kebab :
  camel_to_kebab (replace_content "FooBar") = "foo-bar" /\
  replace_content (camel_to_kebab "FooBar") = "foo-bar" /\
  camel_to_kebab (replace_content "FooBar") <> "FooBar" /\
  process_directory ascii_codec ["repo"] (Dir [("FooBar", Dir [])])
    = ([VisitDir ["repo"; "FooBar"]], Ok (Dir [("FooBar", Dir [])])) /\
  process_directory ascii_codec ["repo"] (Dir [("FooBar", File [])])
    = ([VisitFile ["repo"; "FooBar"]], Ok (Dir [("FooBar", File [])])).
Proof. repeat split. discriminate. Qed.

(** *** Scope of the events and bottom-up order *)

Lemma in_scope_nil (S : path -> Prop) : in_scope S [].
Proof. intros e []. Qed.

Lemma in_scope_app (S : path -> Prop) (a b : list event) :
  in_scope S a -> in_scope S b -> in_scope S (a ++ b).
Proof. intros Ha Hb e H. apply in_app_or in H as [H|H]; [now apply Ha | now apply Hb]. Qed.

Lemma in_scope_cons (S : path -> Prop) (e : event) (tr : list event) :
  (forall p, In p (paths_of e) -> S p) -> in_scope S tr -> in_scope S (e :: tr).
Proof. intros He Htr e' [<-|H]; [exact He | now apply Htr]. Qed.

Lemma in_scope_weaken (S T : path -> Prop) (tr : list event) :
  (forall p, S p -> T p) -> in_scope S tr -> in_scope T tr.
Proof. intros HST H e He p Hp. apply HST. now apply (H e). Qed.

Lemma at_level_join (root : path) (x : string) : at_level root (root ++ [x]).
Proof. now exists x. Qed.

Lemma below_length (d p : path) : below d p -> length d < length p.
Proof.
  intros (q & Hq & ->). rewrite length_app. destruct q; [congruence | simpl; lia].
Qed.

Lemma at_level_length (root p : path) : at_level root p -> length p = S (length root).
Proof. intros [x ->]. rewrite length_app. simpl. lia. Qed.

Lemma at_level_below (root p : path) : at_level root p -> below root p.
Proof. intros [x ->]. exists [x]. split; [discriminate | reflexivity]. Qed.

Lemma below_up (root : path) (name : string) (p : path) :
  below (root ++ [name]) p -> below root p.
Proof.
  intros (q & _ & ->). exists (name :: q). split; [discriminate|].
  now rewrite <- app_assoc.
Qed.

Local Tactic Notation "scope_paths" :=
  scope_paths_with in_scope_cons at_level_join in_scope_nil.

Lemma process_content_scope (cd : codec) (root : path) (x : string) (es : entries) :
  in_scope (at_level root) (fst (process_content cd (root ++ [x]) x es)).
Proof.
  unfold process_content.
  destruct (negb (is_binary cd x es)); [|simpl; scope_paths].
  destruct (lookup x es) as [[c|d]|]; simpl; try apply in_scope_nil.
  destruct (read_utf8 cd c) as [s|]; [|simpl; scope_paths].
  destruct (negb (String.eqb (replace_content s) s)); simpl; scope_paths.
Qed.

Lemma process_dir_name_scope (root : path) (name : string) (es : entries) :
  in_scope (at_level root) (fst (process_dir_name root name es)).
Proof.
  unfold process_dir_name.
  destruct (negb (path_eqb (root ++ [name]) (root ++ [replace_content name])));
    [|simpl; scope_paths].
  destruct (os_rename name (replace_content name) es); simpl; scope_paths.
Qed.

Lemma process_file_name_scope (cd : codec) (root : path) (name : string) (es : entries) :
  in_scope (at_level root) (fst (process_file_name cd root name es)).
Proof.
  unfold process_file_name.
  destruct (negb (path_eqb (root ++ [name]) (root ++ [replace_content name]))).
  - destruct (os_rename name (replace_content name) es) as [es'|e]; [|simpl; scope_paths].
    assert (H := process_content_scope cd root (replace_content name) es').
    destruct (process_content cd (root ++ [replace_content name])
                (replace_content name) es') as [tr r].
    simpl in *. scope_paths. exact H.
  - assert (H := process_content_scope cd root (replace_content name) es).
    destruct (process_content cd (root ++ [replace_content name])
                (replace_content name) es) as [tr r].
    simpl in *. scope_paths. exact H.
Qed.

(** The body run at a triple mentions entries of that directory only. *)
Lemma process_level_scope (cd : codec) (root : path) (dirs files : list string)
  (es : entries) :
  in_scope (at_level root) (fst (process_level cd root dirs files es)).
Proof.
  unfold process_level.
  assert (Hd : forall l es0, in_scope (at_level root)
                               (fst (for_each (process_dir_name root) l es0))).
  { induction l as [|x l IH]; intros es0; [apply in_scope_nil|]. simpl.
    assert (Hx := process_dir_name_scope root x es0).
    destruct (process_dir_name root x es0) as [tr [es1|e]]; [|exact Hx].
    specialize (IH es1). destruct (for_each (process_dir_name root) l es1) as [tr' r].
    now apply in_scope_app. }
  assert (Hf : forall l es0, in_scope (at_level root)
                               (fst (for_each (process_file_name cd root) l es0))).
  { induction l as [|x l IH]; intros es0; [apply in_scope_nil|]. simpl.
    assert (Hx := process_file_name_scope cd root x es0).
    destruct (process_file_name cd root x es0) as [tr [es1|e]]; [|exact Hx].
    specialize (IH es1). destruct (for_each (process_file_name cd root) l es1) as [tr' r].
    now apply in_scope_app. }
  specialize (Hd dirs es).
  destruct (for_each (process_dir_name root) dirs es) as [tr [es'|e]]; [|exact Hd].
  specialize (Hf files es').
  destruct (for_each (process_file_name cd root) files es') as [tr' r].
  now apply in_scope_app.
Qed.

(** The walk of a directory mentions paths strictly below it only. *)
Lemma walk_scope (cd : codec) (n : node) (root : path) :
  in_scope (below root) (fst (walk cd root n)).
Proof.
  apply (walk_trace cd (fun r => in_scope (below r))).
  - intros r. apply in_scope_nil.
  - intros r. apply in_scope_app.
  - intros r name tr. apply in_scope_weaken. apply below_up.
  - intros r name es. eapply in_scope_weaken; [apply at_level_below|].
    apply process_dir_name_scope.
  - intros r name es. eapply in_scope_weaken; [apply at_level_below|].
    apply process_file_name_scope.
Qed.

(** The walks of the sub-directories of a listing mention paths through
    one of its names only. *)
Lemma walk_subdirs_scope (cd : codec) (root : path) (l : entries) :
  in_scope (fun p => exists c q, In c (names l) /\ p = root ++ c :: q)
    (fst (walk_subdirs (walk cd) root l)).
Proof.
  induction l as [|[name child] l IH]; [apply in_scope_nil|].
  assert (IH' : in_scope (fun p => exists c q, In c (names ((name, child) :: l))
                                                /\ p = root ++ c :: q)
                  (fst (walk_subdirs (walk cd) root l))).
  { eapply in_scope_weaken; [|exact IH]. intros p (c & q & Hc & ->).
    exists c, q. split; [now right | reflexivity]. }
  cbn [walk_subdirs]. destruct child as [c|es].
  - destruct (walk_subdirs (walk cd) root l) as [tr [r|e]]; exact IH'.
  - assert (Hw : in_scope (fun p => exists c q, In c (names ((name, Dir es) :: l))
                                                 /\ p = root ++ c :: q)
                   (fst (walk cd (root ++ [name]) (Dir es)))).
    { eapply in_scope_weaken; [|apply walk_scope]. intros p (q & _ & ->).
      exists name, q. split; [now left | now rewrite <- app_assoc]. }
    destruct (walk cd (root ++ [name]) (Dir es)) as [tr1 [child'|e]]; [|exact Hw].
    destruct (walk_subdirs (walk cd) root l) as [tr2 [r|e]]; now apply in_scope_app.
Qed.

Lemma ordered_app (a b : list event) :
  ordered a -> ordered b ->
  (forall d d', In (Rename d d') a -> untouched_below d b) ->
  ordered (a ++ b).
Proof.
  induction a as [|e a IH]; intros Ha Hb Hab; [exact Hb|].
  destruct Ha as [He Ha]. simpl. split.
  - destruct e; try exact I. apply in_scope_app; [exact He|].
    apply (Hab old new). now left.
  - apply IH; [exact Ha | exact Hb|]. intros d d' H. apply (Hab d d'). now right.
Qed.

Lemma ordered_split (tr1 tr2 : list event) (d d' : path) :
  ordered (tr1 ++ Rename d d' :: tr2) -> untouched_below d tr2.
Proof.
  induction tr1 as [|e tr1 IH]; intros H.
  - exact (proj1 H).
  - apply IH. exact (proj2 H).
Qed.

Lemma level_scope_ordered (root : path) (tr : list event) :
  in_scope (at_level root) tr -> ordered tr.
Proof.
  induction tr as [|e tr IH]; intros H; [exact I|]. split.
  - destruct e; try exact I. intros e' He' p Hp Hb.
    apply below_length in Hb.
    assert (H1 : at_level root old) by (apply (H (Rename old new)); simpl; auto).
    assert (H2 : at_level root p) by (apply (H e'); [now right | exact Hp]).
    apply at_level_length in H1, H2. lia.
  - apply IH. intros e' He'. apply H. now right.
Qed.

Lemma distinct_NoDup (l : list string) : distinct l = true <-> NoDup l.
Proof.
  induction l as [|x l IH]; simpl.
  - split; [constructor | reflexivity].
  - rewrite andb_true_iff, negb_true_iff, IH, NoDup_cons_iff.
    assert (E : existsb (String.eqb x) l = false <-> ~ In x l).
    { split.
      - intros H Hin. assert (T : existsb (String.eqb x) l = true).
        { apply existsb_exists. exists x. split; [exact Hin | apply String.eqb_refl]. }
        congruence.
      - intros H. destruct (existsb (String.eqb x) l) eqn:T; [|reflexivity].
        apply existsb_exists in T as (y & Hy & Hxy). apply String.eqb_eq in Hxy.
        subst y. contradiction. }
    now rewrite E.
Qed.

Lemma walk_subdirs_ordered (cd : codec) (root : path) (l : entries) :
  Forall (fun e => forall r, well_formed (snd e) = true ->
                             ordered (fst (walk cd r (snd e)))) l ->
  distinct (names l) = true ->
  forallb (fun e => match e with (_, child) => well_formed child end) l = true ->
  ordered (fst (walk_subdirs (walk cd) root l)).
Proof.
  induction 1 as [|[name child] l Hc _ IH]; intros Hd Hw; [exact I|].
  simpl in Hd, Hw. apply andb_true_iff in Hd as [Hn Hd], Hw as [Hwc Hw].
  specialize (IH Hd Hw). simpl in Hc. cbn [walk_subdirs]. destruct child as [c|es].
  - destruct (walk_subdirs (walk cd) root l) as [tr [r|e]]; exact IH.
  - specialize (Hc (root ++ [name]) Hwc).
    assert (Hs1 := walk_scope cd (Dir es) (root ++ [name])).
    assert (Hs2 := walk_subdirs_scope cd root l).
    destruct (walk cd (root ++ [name]) (Dir es)) as [tr1 [child'|e]]; [|exact Hc].
    assert (Hx : forall d d', In (Rename d d') tr1 ->
                   untouched_below d (fst (walk_subdirs (walk cd) root l))).
    { intros d d' Hin e He p Hp (q2 & _ & Hq2).
      destruct (Hs1 _ Hin d) as (q1 & _ & Hq1); [simpl; auto|].
      destruct (Hs2 _ He p Hp) as (c & q & Hcin & Hq).
      subst d. rewrite Hq in Hq2. rewrite <- !app_assoc in Hq2.
      apply app_inv_head in Hq2. simpl in Hq2. injection Hq2 as -> _.
      apply negb_true_iff in Hn.
      assert (T : existsb (String.eqb name) (names l) = true).
      { apply existsb_exists. exists name. split; [exact Hcin | apply String.eqb_refl]. }
      congruence. }
    destruct (walk_subdirs (walk cd) root l) as [tr2 [r|e]]; simpl in *;
      now apply ordered_app.
Qed.

(** The trace of a walk is ordered bottom-up. *)
Lemma walk_ordered (cd : codec) (n : node) :
  forall root, well_formed n = true -> ordered (fst (walk cd root n)).
Proof.
  induction n as [c|es IH] using node_induction; intros root Hw; [exact I|].
  simpl in Hw. apply andb_true_iff in Hw as [Hd Hw].
  cbn [walk].
  assert (Ho := walk_subdirs_ordered cd root es IH Hd Hw).
  assert (Hs := walk_subdirs_scope cd root es).
  destruct (walk_subdirs (walk cd) root es) as [tr [es'|e]]; [|exact Ho].
  assert (Hl := process_level_scope cd root (dir_names es) (file_names es) es').
  assert (Hx : forall d d', In (Rename d d') tr ->
                 untouched_below d
                   (fst (process_level cd root (dir_names es) (file_names es) es'))).
  { intros d d' Hin e He p Hp Hb. apply below_length in Hb.
    destruct (Hs _ Hin d) as (c & q & _ & ->); [simpl; auto|].
    apply (Hl _ He), at_level_length in Hp.
    rewrite length_app in Hb. simpl in Hb. lia. }
  apply level_scope_ordered in Hl.
  destruct (process_level cd root (dir_names es) (file_names es) es') as [tr' [es''|e]];
    simpl in *; now apply ordered_app.
Qed.

(** *** Each entry is visited once *)

Lemma visited_app (a b : list event) : visited (a ++ b) = visited a ++ visited b.
Proof.
  induction a as [|e a IH]; [reflexivity|]. destruct e; simpl; now rewrite IH.
Qed.

Lemma renamed_from_app (a b : list event) :
  renamed_from (a ++ b) = renamed_from a ++ renamed_from b.
Proof.
  induction a as [|e a IH]; [reflexivity|]. destruct e; simpl; now rewrite IH.
Qed.

Lemma process_content_no_visit (cd : codec) (p : path) (x : string) (es : entries) :
  visited (fst (process_content cd p x es)) = [] /\
  renamed_from (fst (process_content cd p x es)) = [].
Proof.
  unfold process_content. destruct (negb (is_binary cd x es)); [|now split].
  destruct (lookup x es) as [[c|d]|]; try now split.
  destruct (read_utf8 cd c) as [s|]; [|now split].
  destruct (negb (String.eqb (replace_content s) s)); now split.
Qed.

Lemma process_dir_name_visited (root : path) (name : string) (es : entries) :
  visited (fst (process_dir_name root name es)) = [root ++ [name]].
Proof.
  unfold process_dir_name.
  destruct (negb (path_eqb (root ++ [name]) (root ++ [replace_content name])));
    [|reflexivity].
  destruct (os_rename name (replace_content name) es); reflexivity.
Qed.

Lemma process_file_name_visited (cd : codec) (root : path) (name : string) (es : entries) :
  visited (fst (process_file_name cd root name es)) = [root ++ [name]].
Proof.
  unfold process_file_name.
  destruct (negb (path_eqb (root ++ [name]) (root ++ [replace_content name]))).
  - destruct (os_rename name (replace_content name) es) as [es'|e]; [|reflexivity].
    destruct (process_content_no_visit cd (root ++ [replace_content name])
                (replace_content name) es') as [H _].
    destruct (process_content cd (root ++ [replace_content name])
                (replace_content name) es') as [tr r].
    simpl in *. now rewrite H.
  - destruct (process_content_no_visit cd (root ++ [replace_content name])
                (replace_content name) es) as [H _].
    destruct (process_content cd (root ++ [replace_content name])
                (replace_content name) es) as [tr r].
    simpl in *. now rewrite H.
Qed.

Lemma prefix_of_refl {A : Type} (l : list A) : prefix_of l l.
Proof. exists []. now rewrite app_nil_r. Qed.

Lemma prefix_of_nil {A : Type} (l : list A) : prefix_of [] l.
Proof. now exists l. Qed.

Lemma prefix_of_app {A : Type} (a b c : list A) : prefix_of b c -> prefix_of (a ++ b) (a ++ c).
Proof. intros [r ->]. exists r. now rewrite app_assoc. Qed.

Lemma prefix_of_app_r {A : Type} (a b c : list A) : prefix_of a b -> prefix_of a (b ++ c).
Proof. intros [r ->]. exists (r ++ c). now rewrite app_assoc. Qed.

Lemma prefix_of_In {A : Type} (a b : list A) (x : A) : prefix_of a b -> In x a -> In x b.
Proof. intros [r ->] H. apply in_or_app. now left. Qed.

Lemma prefix_of_NoDup {A : Type} (a b : list A) : prefix_of a b -> NoDup b -> NoDup a.
Proof. intros [r ->]. apply NoDup_app_remove_r. Qed.

(** Sequencing two runs: the second starts when the first completes. *)
Lemma tracks_seq {A B : Type} (tr1 : list event) (a : A) (m2 : list event * res B)
  (full1 full2 : list path) (r : res B) :
  tracks (tr1, Ok a) full1 -> tracks m2 full2 -> snd m2 = r ->
  tracks (tr1 ++ fst m2, r) (full1 ++ full2).
Proof.
  intros [_ H1] [P2 H2] <-. specialize (H1 a eq_refl). simpl in *.
  split; simpl; rewrite visited_app, H1.
  - now apply prefix_of_app.
  - intros b Hb. now rewrite (H2 b Hb).
Qed.

Lemma tracks_ok {A B : Type} (tr : list event) (a : A) (b : B) (full : list path) :
  tracks (tr, Ok a) full -> tracks (tr, Ok b) full.
Proof. intros [P Q]. split; [exact P|]. intros ? _. exact (Q a eq_refl). Qed.

Lemma tracks_raise {A B : Type} (tr : list event) (e : exn) (full : list path) :
  tracks (tr, @Raise A e) full -> tracks (tr, @Raise B e) full.
Proof. intros [P _]. split; [exact P | discriminate]. Qed.

Lemma tracks_stop {A B : Type} (tr : list event) (e : exn) (full1 full2 : list path) :
  tracks (tr, @Raise A e) full1 -> tracks (tr, @Raise B e) (full1 ++ full2).
Proof.
  intros [P _]. split; simpl in *; [now apply prefix_of_app_r | discriminate].
Qed.

Lemma for_each_tracks (root : path) (body : string -> entries -> list event * res entries) :
  (forall x es, visited (fst (body x es)) = [root ++ [x]]) ->
  forall l es, tracks (for_each body l es) (map (fun x => root ++ [x]) l).
Proof.
  intros Hb l. induction l as [|x l IH]; intros es.
  - split; [apply prefix_of_nil | reflexivity].
  - simpl. specialize (Hb x es). destruct (body x es) as [tr [es'|e]]; simpl in Hb.
    + specialize (IH es').
      destruct (for_each body l es') as [tr' r] eqn:E.
      change (tracks (tr ++ fst (tr', r), r) ([root ++ [x]] ++ map (fun x => root ++ [x]) l)).
      apply (tracks_seq tr es'); [|exact IH|reflexivity].
      split; simpl; rewrite Hb; [apply prefix_of_refl | reflexivity].
    + split; simpl; [|discriminate]. rewrite Hb.
      apply (prefix_of_app [root ++ [x]] []), prefix_of_nil.
Qed.

Lemma process_level_tracks (cd : codec) (root : path) (dirs files : list string)
  (es : entries) :
  tracks (process_level cd root dirs files es)
    (map (fun x => root ++ [x]) dirs ++ map (fun x => root ++ [x]) files).
Proof.
  unfold process_level.
  assert (Hd := for_each_tracks root (process_dir_name root)
                  (process_dir_name_visited root) dirs es).
  destruct (for_each (process_dir_name root) dirs es) as [tr [es'|e]].
  - assert (Hf := for_each_tracks root (process_file_name cd root)
                    (process_file_name_visited cd root) files es').
    destruct (for_each (process_file_name cd root) files es') as [tr' r] eqn:E.
    change (tracks (tr ++ fst (tr', r), r)
              (map (fun x => root ++ [x]) dirs ++ map (fun x => root ++ [x]) files)).
    now apply (tracks_seq tr es').
  - now apply (tracks_stop (A:=entries)).
Qed.

Lemma walk_subdirs_tracks (cd : codec) (root : path) (l : entries) :
  Forall (fun e => forall r, tracks (walk cd r (snd e)) (walk_order r (snd e))) l ->
  tracks (walk_subdirs (walk cd) root l) (subdirs_order walk_order root l).
Proof.
  induction 1 as [|[name child] l Hc _ IH].
  - split; [apply prefix_of_nil | reflexivity].
  - simpl in Hc. cbn [walk_subdirs subdirs_order]. destruct child as [c|es].
    + cbn [walk_order app].
      destruct (walk_subdirs (walk cd) root l) as [tr [r|e]].
      * now apply (tracks_ok _ r).
      * exact IH.
    + specialize (Hc (root ++ [name])).
      destruct (walk cd (root ++ [name]) (Dir es)) as [tr1 [child'|e]].
      * destruct (walk_subdirs (walk cd) root l) as [tr2 [r|e]] eqn:E.
        -- apply (tracks_ok _ r).
           exact (tracks_seq tr1 child' (tr2, Ok r) _ _ (Ok r) Hc IH eq_refl).
        -- exact (tracks_seq tr1 child' (tr2, @Raise entries e) _ _ (Raise e)
                    Hc IH eq_refl).
      * now apply (tracks_stop (A:=node)).
Qed.

(** The entries a walk visits are an initial part of [walk_order], and all
    of them when the walk completes. *)
Lemma walk_tracks (cd : codec) (n : node) :
  forall root, tracks (walk cd root n) (walk_order root n).
Proof.
  induction n as [c|es IH] using node_induction; intros root.
  - split; [apply prefix_of_nil | reflexivity].
  - cbn [walk walk_order].
    assert (Hs := walk_subdirs_tracks cd root es IH).
    destruct (walk_subdirs (walk cd) root es) as [tr [es'|e]].
    + assert (Hl := process_level_tracks cd root (dir_names es) (file_names es) es').
      destruct (process_level cd root (dir_names es) (file_names es) es')
        as [tr' [es''|e]] eqn:E.
      * apply (tracks_ok _ es'').
        exact (tracks_seq tr es' (tr', Ok es'') _ _ (Ok es'') Hs Hl eq_refl).
      * apply (tracks_raise (A:=entries)).
        exact (tracks_seq tr es' (tr', @Raise entries e) _ _ (Raise e) Hs Hl eq_refl).
    + now apply (tracks_stop (A:=entries)).
Qed.

(** *** The order of a complete walk lists every entry once *)

Lemma lookup_Some_In (name : string) (es : entries) (x : node) :
  lookup name es = Some x -> In (name, x) es.
Proof.
  induction es as [|[n y] es IH]; [discriminate|]. simpl.
  destruct (String.eqb_spec n name) as [->|_].
  - intros [= ->]. now left.
  - intros H. right. now apply IH.
Qed.

Lemma In_lookup (name : string) (es : entries) (x : node) :
  NoDup (names es) -> In (name, x) es -> lookup name es = Some x.
Proof.
  induction es as [|[n y] es IH]; [intros _ []|]. simpl.
  intros Hnd [H|H]; apply NoDup_cons_iff in Hnd as [Hn Hnd].
  - injection H as -> ->. now rewrite String.eqb_refl.
  - destruct (String.eqb_spec n name) as [->|_]; [|now apply IH].
    elim Hn. apply (in_map fst) in H. exact H.
Qed.

Lemma In_names_lookup (name : string) (es : entries) :
  In name (names es) -> exists x, lookup name es = Some x.
Proof.
  induction es as [|[n y] es IH]; [intros []|]. simpl.
  destruct (String.eqb_spec n name) as [->|Hne]; [now exists y|].
  intros [H|H]; [contradiction | now apply IH].
Qed.

Lemma dir_names_In (name : string) (es : entries) :
  In name (dir_names es) -> In name (names es).
Proof.
  unfold dir_names, names. intros H. apply in_map_iff in H as ([n x] & <- & H).
  apply filter_In in H as [H _]. now apply (in_map fst) in H.
Qed.

Lemma file_names_In (name : string) (es : entries) :
  In name (file_names es) -> In name (names es).
Proof.
  unfold file_names, names. intros H. apply in_map_iff in H as ([n x] & <- & H).
  apply filter_In in H as [H _]. now apply (in_map fst) in H.
Qed.

Lemma In_level_names (name : string) (x : node) (es : entries) :
  In (name, x) es -> In name (dir_names es ++ file_names es).
Proof.
  intros H. apply in_or_app. unfold dir_names, file_names, names.
  destruct (is_dir x) eqn:E; [left|right];
    apply (in_map fst _ (name, x)), filter_In; simpl; now rewrite E.
Qed.

Lemma level_names_permutation (es : entries) :
  Permutation (dir_names es ++ file_names es) (names es).
Proof.
  unfold dir_names, file_names, names.
  induction es as [|[n x] es IH]; [constructor|]. simpl.
  destruct (is_dir x); simpl.
  - now constructor.
  - symmetry. etransitivity; [|apply Permutation_middle]. constructor. now symmetry.
Qed.

Lemma join_NoDup (root : path) (l : list string) :
  NoDup l -> NoDup (map (fun x => root ++ [x]) l).
Proof.
  induction 1 as [|x l Hx _ IH]; [constructor|]. simpl. constructor; [|exact IH].
  intros H. apply in_map_iff in H as (y & Hy & Hin).
  apply app_inv_head in Hy. injection Hy as ->. contradiction.
Qed.

Lemma level_order_NoDup (root : path) (es : entries) :
  NoDup (names es) ->
  NoDup (map (fun x => root ++ [x]) (dir_names es)
         ++ map (fun x => root ++ [x]) (file_names es)).
Proof.
  intros H. rewrite <- map_app. apply join_NoDup.
  apply (Permutation_NoDup (l := names es)); [|exact H].
  symmetry. apply level_names_permutation.
Qed.

Lemma walk_order_scope (n : node) :
  forall root p, In p (walk_order root n) -> below root p.
Proof.
  induction n as [c|es IH] using node_induction; intros root p; [intros []|].
  cbn [walk_order]. intros H. apply in_app_or in H as [H|H].
  - revert H. induction IH as [|[name child] l Hc _ IHl]; [intros []|].
    cbn [subdirs_order]. intros H. apply in_app_or in H as [H|H]; [|now apply IHl].
    apply (Hc (root ++ [name])) in H. now apply below_up in H.
  - rewrite <- map_app in H. apply in_map_iff in H as (x & <- & _).
    apply at_level_below, at_level_join.
Qed.

Lemma subdirs_order_scope (root : path) (l : entries) (p : path) :
  In p (subdirs_order walk_order root l) ->
  exists c child q, In (c, child) l /\ q <> [] /\ p = root ++ c :: q /\
                    In p (walk_order (root ++ [c]) child).
Proof.
  induction l as [|[name child] l IH]; [intros []|].
  cbn [subdirs_order]. intros H. apply in_app_or in H as [H|H].
  - destruct (walk_order_scope child _ _ H) as (q & Hq & ->).
    exists name, child, q. repeat split; [now left | exact Hq | now rewrite <- app_assoc | exact H].
  - destruct (IH H) as (c & ch & q & Hin & Hq & Hp & Hw).
    exists c, ch, q. repeat split; [now right | exact Hq | exact Hp | exact Hw].
Qed.

Lemma In_subdirs_order (root : path) (l : entries) (c : string) (child : node) (p : path) :
  In (c, child) l -> In p (walk_order (root ++ [c]) child) ->
  In p (subdirs_order walk_order root l).
Proof.
  induction l as [|[name ch] l IH]; [intros []|].
  cbn [subdirs_order]. intros [H|H] Hp; apply in_or_app.
  - injection H as -> ->. now left.
  - right. now apply IH.
Qed.

Lemma subdirs_order_NoDup (root : path) (l : entries) :
  Forall (fun e => forall r, well_formed (snd e) = true ->
                             NoDup (walk_order r (snd e))) l ->
  NoDup (names l) ->
  forallb (fun e => match e with (_, child) => well_formed child end) l = true ->
  NoDup (subdirs_order walk_order root l).
Proof.
  induction 1 as [|[name child] l Hc _ IH]; intros Hd Hw; [constructor|].
  simpl in Hd, Hw. apply NoDup_cons_iff in Hd as [Hn Hd].
  apply andb_true_iff in Hw as [Hwc Hw].
  cbn [subdirs_order]. apply NoDup_app.
  - now apply Hc.
  - now apply IH.
  - intros p H1 H2.
    destruct (walk_order_scope child _ _ H1) as (q1 & _ & E1).
    destruct (subdirs_order_scope _ _ _ H2) as (c & ch & q & Hin & _ & E2 & _).
    rewrite E1, <- app_assoc in E2. apply app_inv_head in E2.
    simpl in E2. injection E2 as -> _.
    apply Hn. apply (in_map fst) in Hin. exact Hin.
Qed.

Lemma walk_order_NoDup (n : node) :
  forall root, well_formed n = true -> NoDup (walk_order root n).
Proof.
  induction n as [c|es IH] using node_induction; intros root Hw; [constructor|].
  simpl in Hw. apply andb_true_iff in Hw as [Hd Hw]. apply distinct_NoDup in Hd.
  cbn [walk_order]. apply NoDup_app.
  - now apply subdirs_order_NoDup.
  - now apply level_order_NoDup.
  - intros p H1 H2.
    destruct (subdirs_order_scope _ _ _ H1) as (c & ch & q & _ & Hq & -> & _).
    rewrite <- map_app in H2. apply in_map_iff in H2 as (x & Hx & _).
    apply app_inv_head in Hx. injection Hx as _ Hx. now subst q.
Qed.

(** Every entry of the tree is in the order of a complete walk. *)
Lemma walk_order_complete (n : node) :
  forall root q, q <> [] -> find n q <> None -> In (root ++ q) (walk_order root n).
Proof.
  induction n as [c|es IH] using node_induction; intros root q Hq Hf.
  - destruct q; [congruence | now elim Hf].
  - destruct q as [|name q']; [congruence|]. simpl in Hf.
    destruct (lookup name es) as [child|] eqn:E; [|now elim Hf].
    apply lookup_Some_In in E. cbn [walk_order]. apply in_or_app.
    destruct q' as [|x q''].
    + right. rewrite <- map_app. apply (in_map (fun x => root ++ [x])).
      now apply (In_level_names name child).
    + left. apply (In_subdirs_order root es name child); [exact E|].
      rewrite Forall_forall in IH. specialize (IH _ E (root ++ [name]) (x :: q'')).
      simpl in IH. rewrite <- app_assoc in IH. apply IH; [discriminate | exact Hf].
Qed.

(** The order of a complete walk lists entries of the tree only. *)
Lemma walk_order_sound (n : node) :
  forall root p, well_formed n = true -> In p (walk_order root n) ->
  exists q, q <> [] /\ p = root ++ q /\ find n q <> None.
Proof.
  induction n as [c|es IH] using node_induction; intros root p Hw; [intros []|].
  simpl in Hw. apply andb_true_iff in Hw as [Hd Hw]. apply distinct_NoDup in Hd.
  cbn [walk_order]. intros H. apply in_app_or in H as [H|H].
  - destruct (subdirs_order_scope _ _ _ H) as (c & ch & q & Hin & Hq & -> & Hp).
    rewrite Forall_forall in IH. rewrite forallb_forall in Hw.
    specialize (Hw _ Hin). simpl in Hw.
    destruct (IH _ Hin (root ++ [c]) _ Hw Hp) as (q' & Hq' & E & Hf). simpl in Hf.
    rewrite <- app_assoc in E. apply app_inv_head in E. simpl in E. injection E as <-.
    exists (c :: q). repeat split; [discriminate|]. simpl.
    now rewrite (In_lookup c es ch Hd Hin).
  - rewrite <- map_app in H. apply in_map_iff in H as (x & <- & Hx).
    exists [x]. repeat split; [discriminate|]. simpl.
    assert (Hn : In x (names es)).
    { apply in_app_or in Hx as [Hx|Hx]; [now apply dir_names_In | now apply file_names_In]. }
    destruct (In_names_lookup _ _ Hn) as [y ->]. discriminate.
Qed.

(** *** No entry is renamed twice *)

Lemma subseq_nil_l {A : Type} (l : list A) : subseq [] l.
Proof. induction l; [apply subseq_nil | now apply subseq_skip]. Qed.

Lemma subseq_refl {A : Type} (l : list A) : subseq l l.
Proof. induction l; [apply subseq_nil | now apply subseq_keep]. Qed.

Lemma subseq_app {A : Type} (a a' b b' : list A) :
  subseq a a' -> subseq b b' -> subseq (a ++ b) (a' ++ b').
Proof.
  induction 1 as [|x l1 l2 _ IH|x l1 l2 _ IH]; intros Hb; simpl.
  - exact Hb.
  - apply subseq_skip. now apply IH.
  - apply subseq_keep. now apply IH.
Qed.

Lemma subseq_In {A : Type} (a b : list A) (x : A) : subseq a b -> In x a -> In x b.
Proof.
  induction 1 as [|y a b _ IH|y a b _ IH]; intros H; [exact H | right; auto |].
  destruct H as [H|H]; [now left | right; auto].
Qed.

Lemma subseq_NoDup {A : Type} (a b : list A) : subseq a b -> NoDup b -> NoDup a.
Proof.
  induction 1 as [|y a b Hs IH|y a b Hs IH]; intros H; [exact H | |];
    apply NoDup_cons_iff in H as [Hy H]; [now apply IH|].
  constructor; [|now apply IH]. intros Hin. apply Hy. now apply (subseq_In a b).
Qed.

Lemma renamed_subseq_visited (cd : codec) (root : path) (n : node) :
  subseq (renamed_from (fst (walk cd root n))) (visited (fst (walk cd root n))).
Proof.
  apply (walk_trace cd (fun _ tr => subseq (renamed_from tr) (visited tr))).
  - intros _. apply subseq_nil.
  - intros _ a b Ha Hb. rewrite renamed_from_app, visited_app. now apply subseq_app.
  - auto.
  - intros r name es. unfold process_dir_name.
    destruct (negb (path_eqb (r ++ [name]) (r ++ [replace_content name])));
      [|simpl; first [apply subseq_refl | apply subseq_nil_l]].
    destruct (os_rename name (replace_content name) es); simpl; first [apply subseq_refl | apply subseq_nil_l].
  - intros r name es. unfold process_file_name.
    destruct (negb (path_eqb (r ++ [name]) (r ++ [replace_content name]))).
    + destruct (os_rename name (replace_content name) es) as [es'|e];
        [|simpl; first [apply subseq_refl | apply subseq_nil_l]].
      destruct (process_content_no_visit cd (r ++ [replace_content name])
                  (replace_content name) es') as [H1 H2].
      destruct (process_content cd (r ++ [replace_content name])
                  (replace_content name) es') as [tr res0].
      simpl in *. rewrite H1, H2. first [apply subseq_refl | apply subseq_nil_l].
    + destruct (process_content_no_visit cd (r ++ [replace_content name])
                  (replace_content name) es) as [H1 H2].
      destruct (process_content cd (r ++ [replace_content name])
                  (replace_content name) es) as [tr res0].
      simpl in *. rewrite H1, H2. first [apply subseq_refl | apply subseq_nil_l].
Qed.

(** *** Without name clashes the walk computes [transform] *)

Lemma for_each_snd_cons (body : string -> entries -> list event * res entries)
  (x : string) (l : list string) (es : entries) :
  snd (for_each body (x :: l) es)
  = match snd (body x es) with
    | Ok es' => snd (for_each body l es')
    | Raise e => Raise e
    end.
Proof.
  cbn [for_each]. destruct (body x es) as [tr [es'|e]]; [|reflexivity].
  cbn [snd]. destruct (for_each body l es'). reflexivity.
Qed.

Lemma process_level_snd (cd : codec) (root : path) (dirs files : list string) (es : entries) :
  snd (process_level cd root dirs files es)
  = match snd (for_each (process_dir_name root) dirs es) with
    | Ok es' => snd (for_each (process_file_name cd root) files es')
    | Raise e => Raise e
    end.
Proof.
  unfold process_level.
  destruct (for_each (process_dir_name root) dirs es) as [tr [es'|e]]; [|reflexivity].
  cbn [snd]. destruct (for_each (process_file_name cd root) files es'). reflexivity.
Qed.

Lemma mem_In (x : string) (l : list string) : mem x l = true <-> In x l.
Proof.
  unfold mem. rewrite existsb_exists. split.
  - intros (y & Hy & E). apply String.eqb_eq in E. now subst.
  - intros H. exists x. split; [exact H | apply String.eqb_refl].
Qed.

Lemma mem_cons (x y : string) (l : list string) :
  mem x (y :: l) = String.eqb x y || mem x l.
Proof. reflexivity. Qed.

Lemma set_content_same (k : string) (c : bytes) (es : entries) :
  lookup k es = Some (File c) -> set_content k c es = es.
Proof.
  induction es as [|[n y] es IH]; [reflexivity|]. simpl.
  destruct (String.eqb n k); [now intros [= ->] | intros H; now rewrite IH].
Qed.

Lemma process_content_snd (cd : codec) (p : path) (k : string) (es : entries) (c : bytes) :
  lookup k es = Some (File c) ->
  snd (process_content cd p k es) = Ok (set_content k (rewrite cd c) es).
Proof.
  intros H. unfold process_content, is_binary, rewrite. rewrite H.
  destruct (text_readable cd c); simpl; [|now rewrite set_content_same].
  destruct (read_utf8 cd c) as [s|]; simpl; [|now rewrite set_content_same].
  destruct (negb (String.eqb (replace_content s) s)); simpl;
    [reflexivity | now rewrite set_content_same].
Qed.

Lemma lookup_map_at (f : string * node -> string * node) (es : entries)
  (x : string) (y : node) (k : string) (z : node) :
  NoDup (names es) -> In (x, y) es -> f (x, y) = (k, z) ->
  (forall n y', In (n, y') es -> n <> x -> fst (f (n, y')) <> k) ->
  lookup k (map f es) = Some z.
Proof.
  induction es as [|[n y'] es IH]; [intros _ []|].
  intros Hnd Hin Hf Ho. simpl in Hnd. apply NoDup_cons_iff in Hnd as [Hn Hnd].
  simpl. destruct Hin as [E|Hin].
  - injection E as -> ->. rewrite Hf. now rewrite String.eqb_refl.
  - assert (Hne : n <> x).
    { intros ->. apply Hn. apply (in_map fst) in Hin. exact Hin. }
    assert (Hk := Ho n y' (or_introl eq_refl) Hne).
    destruct (f (n, y')) as [k' z']. simpl in Hk.
    destruct (String.eqb_spec k' k) as [|_]; [contradiction|].
    apply IH; auto. intros n0 y0 H0. apply Ho. now right.
Qed.

Lemma lookup_none (k : string) (es : entries) :
  (forall e, In e es -> fst e <> k) -> lookup k es = None.
Proof.
  induction es as [|[n y] es IH]; intros H; [reflexivity|]. simpl.
  destruct (String.eqb_spec n k) as [E|_].
  - elim (H (n, y) (or_introl eq_refl)). exact E.
  - apply IH. intros e He. apply H. now right.
Qed.

Lemma rebind_no_target (old new : string) (es : entries) :
  (forall e, In e es -> fst e <> new) ->
  rebind old new es
  = map (fun e => if String.eqb (fst e) old then (new, snd e) else e) es.
Proof.
  induction es as [|[n y] es IH]; intros H; [reflexivity|]. simpl.
  rewrite IH by (intros e He; apply H; now right).
  destruct (String.eqb n old); [reflexivity|].
  destruct (String.eqb_spec n new) as [E|_]; [|reflexivity].
  elim (H (n, y) (or_introl eq_refl)). exact E.
Qed.

Lemma set_content_map_at (f : string * node -> string * node) (es : entries)
  (x : string) (y : node) (k : string) (c : bytes) :
  NoDup (names es) -> In (x, y) es -> fst (f (x, y)) = k ->
  (forall n y', In (n, y') es -> n <> x -> fst (f (n, y')) <> k) ->
  set_content k c (map f es)
  = map (fun e => if String.eqb (fst e) x then (k, File c) else f e) es.
Proof.
  induction es as [|[n y'] es IH]; [intros _ []|].
  intros Hnd Hin Hf Ho. simpl in Hnd. apply NoDup_cons_iff in Hnd as [Hn Hnd].
  simpl. destruct Hin as [E|Hin].
  - injection E as -> ->. destruct (f (x, y)) as [k' z'] eqn:Ef. simpl in Hf. subst k'.
    rewrite !String.eqb_refl. f_equal.
    apply map_ext_in. intros [n0 y0] H0. simpl.
    destruct (String.eqb_spec n0 x) as [->|_]; [|reflexivity].
    elim Hn. apply (in_map fst) in H0. exact H0.
  - assert (Hne : n <> x).
    { intros ->. apply Hn. apply (in_map fst) in Hin. exact Hin. }
    assert (Hk := Ho n y' (or_introl eq_refl) Hne).
    destruct (f (n, y')) as [k' z'] eqn:Ef. simpl in Hk.
    destruct (String.eqb_spec k' k) as [|_]; [contradiction|].
    destruct (String.eqb_spec n x) as [|_]; [contradiction|].
    f_equal. apply IH; auto. intros n0 y0 H0. apply Ho. now right.
Qed.

Lemma NoDup_map_injective {A B : Type} (f : A -> B) (l : list A) (a b : A) :
  NoDup (map f l) -> In a l -> In b l -> f a = f b -> a = b.
Proof.
  induction l as [|x l IH]; [intros _ []|]. simpl.
  intros Hnd Ha Hb E. apply NoDup_cons_iff in Hnd as [Hx Hnd].
  destruct Ha as [->|Ha], Hb as [->|Hb]; auto.
  - elim Hx. rewrite E. now apply in_map.
  - elim Hx. rewrite <- E. now apply in_map.
Qed.

Lemma In_same_name (es : entries) (x : string) (y y' : node) :
  NoDup (names es) -> In (x, y) es -> In (x, y') es -> y = y'.
Proof.
  intros Hnd H H'. apply (In_lookup _ _ _ Hnd) in H, H'. congruence.
Qed.

Section Level.

Variables (cd : codec) (root : path) (es : entries).
Hypothesis clash : level_clash_free (names es) = true.

Lemma level_names_NoDup : NoDup (names es).
Proof.
  unfold level_clash_free in clash.
  apply andb_true_iff in clash as [H _]. apply andb_true_iff in H as [H _].
  now apply distinct_NoDup.
Qed.

Lemma level_new_names_injective (a b : string) :
  In a (names es) -> In b (names es) -> replace_content a = replace_content b -> a = b.
Proof.
  unfold level_clash_free in clash.
  apply andb_true_iff in clash as [H _]. apply andb_true_iff in H as [_ H].
  apply distinct_NoDup in H. now apply NoDup_map_injective.
Qed.

Lemma level_new_name_free (n : string) :
  In n (names es) -> replace_content n <> n -> ~ In (replace_content n) (names es).
Proof.
  unfold level_clash_free in clash. apply andb_true_iff in clash as [_ H].
  rewrite forallb_forall in H. intros Hn Hne Hin. specialize (H n Hn).
  apply orb_true_iff in H as [H|H].
  - apply String.eqb_eq in H. contradiction.
  - apply negb_true_iff in H. apply mem_In in Hin. unfold mem in Hin. congruence.
Qed.

Lemma In_names (n : string) (y : node) : In (n, y) es -> In n (names es).
Proof. intros H. apply (in_map fst) in H. exact H. Qed.

(** The current name of another entry is neither [x] nor the new name
    of [x]. *)
Lemma other_entry_not_old (done : list string) (x n : string) (y : node) :
  In x (names es) -> In (n, y) es -> n <> x -> fst (step_entry cd done (n, y)) <> x.
Proof.
  intros Hx Hn Hne. unfold step_entry. simpl fst. destruct (mem n done); simpl; [|exact Hne].
  intros E. destruct (String.eqb_spec (replace_content n) n) as [E'|E']; [congruence|].
  apply (level_new_name_free n (In_names _ _ Hn) E'). now rewrite E.
Qed.

Lemma other_entry_not_new (done : list string) (x n : string) (y : node) :
  In x (names es) -> In (n, y) es -> n <> x ->
  fst (step_entry cd done (n, y)) <> replace_content x.
Proof.
  intros Hx Hn Hne. unfold step_entry. simpl fst. destruct (mem n done); simpl.
  - intros E. apply Hne. now apply level_new_names_injective; [apply (In_names _ y)| |].
  - intros ->. destruct (String.eqb_spec (replace_content x) x) as [E'|E']; [congruence|].
    apply (level_new_name_free x Hx E'). now apply (In_names _ y).
Qed.

Lemma lookup_level_state (done : list string) (x : string) (y : node) :
  In (x, y) es -> mem x done = false -> lookup x (level_state cd es done) = Some y.
Proof.
  intros Hin Hm. apply (lookup_map_at _ es x y).
  - apply level_names_NoDup.
  - exact Hin.
  - unfold step_entry. simpl. now rewrite Hm.
  - intros n y' Hn Hne. apply other_entry_not_old; [now apply (In_names _ y) | exact Hn | exact Hne].
Qed.

(** The call of [os.rename] on an entry not yet processed succeeds and
    leaves the entry under its new name. *)
Lemma os_rename_level_state (done : list string) (x : string) (y : node) :
  In (x, y) es -> mem x done = false -> replace_content x <> x ->
  os_rename x (replace_content x) (level_state cd es done)
  = Ok (renamed_state cd es done x).
Proof.
  intros Hin Hm Hne. unfold os_rename.
  rewrite (lookup_level_state done x y Hin Hm).
  destruct (String.eqb_spec x (replace_content x)) as [E|_]; [congruence|].
  assert (Hfree : forall e, In e (level_state cd es done) -> fst e <> replace_content x).
  { intros e He. apply in_map_iff in He as ([n y'] & <- & Hn).
    destruct (String.eqb_spec n x) as [->|Hnx].
    - unfold step_entry. simpl. rewrite Hm. simpl. congruence.
    - apply other_entry_not_new; [now apply (In_names _ y) | exact Hn | exact Hnx]. }
  rewrite (lookup_none _ _ Hfree). f_equal.
  rewrite (rebind_no_target _ _ _ Hfree). unfold level_state, renamed_state.
  rewrite map_map. apply map_ext_in. intros [n y'] Hn. simpl.
  destruct (String.eqb_spec n x) as [->|Hnx].
  - unfold step_entry. simpl. rewrite Hm. simpl. now rewrite String.eqb_refl.
  - assert (H := other_entry_not_old done x n y' (In_names _ _ Hin) Hn Hnx).
    destruct (String.eqb_spec (fst (step_entry cd done (n, y'))) x); [contradiction|].
    reflexivity.
Qed.

Lemma renamed_state_same_name (done : list string) (x : string) (y : node) :
  In (x, y) es -> mem x done = false -> replace_content x = x ->
  level_state cd es done = renamed_state cd es done x.
Proof.
  intros Hin Hm E. unfold level_state, renamed_state. apply map_ext_in.
  intros [n y'] Hn. simpl. destruct (String.eqb_spec n x) as [->|_]; [|reflexivity].
  unfold step_entry. simpl. rewrite Hm, E. reflexivity.
Qed.

Lemma step_entry_other (done : list string) (x n : string) (y : node) :
  n <> x -> step_entry cd (x :: done) (n, y) = step_entry cd done (n, y).
Proof.
  intros Hne. unfold step_entry. simpl fst. rewrite mem_cons.
  destruct (String.eqb_spec n x); [contradiction | reflexivity].
Qed.

Lemma step_entry_this (done : list string) (x : string) (y : node) :
  step_entry cd (x :: done) (x, y) = (replace_content x, finish cd y).
Proof. unfold step_entry. simpl fst. now rewrite mem_cons, String.eqb_refl. Qed.

Lemma process_dir_name_step (done : list string) (x : string) (d : entries) :
  In (x, Dir d) es -> mem x done = false ->
  snd (process_dir_name root x (level_state cd es done))
  = Ok (level_state cd es (x :: done)).
Proof.
  intros Hin Hm.
  assert (R : renamed_state cd es done x = level_state cd es (x :: done)).
  { unfold renamed_state, level_state. apply map_ext_in. intros [n y] Hn. simpl.
    destruct (String.eqb_spec n x) as [->|Hnx].
    - rewrite step_entry_this.
      now rewrite (In_same_name es x y (Dir d) level_names_NoDup Hn Hin).
    - now rewrite step_entry_other. }
  unfold process_dir_name. rewrite path_eqb_join.
  destruct (String.eqb_spec x (replace_content x)) as [E|E]; simpl.
  - rewrite <- R. f_equal. now apply (renamed_state_same_name done x (Dir d)).
  - rewrite (os_rename_level_state done x (Dir d) Hin Hm) by congruence.
    simpl. now rewrite R.
Qed.

Lemma process_file_name_step (done : list string) (x : string) (c : bytes) :
  In (x, File c) es -> mem x done = false ->
  snd (process_file_name cd root x (level_state cd es done))
  = Ok (level_state cd es (x :: done)).
Proof.
  intros Hin Hm.
  assert (Hother : forall n y', In (n, y') es -> n <> x ->
            fst ((fun e => if String.eqb (fst e) x then (replace_content x, snd e)
                           else step_entry cd done e) (n, y')) <> replace_content x).
  { intros n y' Hn Hnx. simpl. destruct (String.eqb_spec n x); [contradiction|].
    apply other_entry_not_new; [now apply (In_names _ (File c)) | exact Hn | exact Hnx]. }
  assert (L : lookup (replace_content x) (renamed_state cd es done x) = Some (File c)).
  { apply (lookup_map_at _ es x (File c)); [apply level_names_NoDup | exact Hin | | exact Hother].
    simpl. now rewrite String.eqb_refl. }
  assert (S : set_content (replace_content x) (rewrite cd c) (renamed_state cd es done x)
              = level_state cd es (x :: done)).
  { unfold renamed_state.
    rewrite (set_content_map_at _ es x (File c));
      [|apply level_names_NoDup | exact Hin | simpl; now rewrite String.eqb_refl | exact Hother].
    unfold level_state. apply map_ext_in. intros [n y] Hn. simpl.
    destruct (String.eqb_spec n x) as [->|Hnx].
    - rewrite step_entry_this.
      now rewrite (In_same_name es x y (File c) level_names_NoDup Hn Hin).
    - now rewrite step_entry_other. }
  unfold process_file_name. rewrite path_eqb_join.
  destruct (String.eqb_spec x (replace_content x)) as [E|E]; simpl.
  - rewrite (renamed_state_same_name done x (File c) Hin Hm) by congruence.
    assert (P := process_content_snd cd (root ++ [replace_content x]) _ _ _ L).
    destruct (process_content cd (root ++ [replace_content x]) (replace_content x)
                (renamed_state cd es done x)) as [tr r].
    simpl in *. now rewrite P, S.
  - rewrite (os_rename_level_state done x (File c) Hin Hm) by congruence.
    assert (P := process_content_snd cd (root ++ [replace_content x]) _ _ _ L).
    destruct (process_content cd (root ++ [replace_content x]) (replace_content x)
                (renamed_state cd es done x)) as [tr r].
    simpl in *. now rewrite P, S.
Qed.

Lemma mem_cons_other (x y : string) (done : list string) :
  x <> y -> mem x done = false -> mem x (y :: done) = false.
Proof.
  intros Hne Hm. rewrite mem_cons, Hm.
  destruct (String.eqb_spec x y); [contradiction | reflexivity].
Qed.

Lemma dirs_loop (l : list string) :
  forall done, NoDup l ->
  (forall x, In x l -> mem x done = false /\ exists d, In (x, Dir d) es) ->
  snd (for_each (process_dir_name root) l (level_state cd es done))
  = Ok (level_state cd es (rev l ++ done)).
Proof.
  induction l as [|x l IH]; intros done Hnd H; [reflexivity|].
  apply NoDup_cons_iff in Hnd as [Hx Hnd].
  destruct (H x (or_introl eq_refl)) as [Hm [d Hd]].
  rewrite for_each_snd_cons, (process_dir_name_step done x d Hd Hm).
  rewrite IH; [simpl; now rewrite <- app_assoc | exact Hnd |].
  intros x' Hx'. destruct (H x' (or_intror Hx')) as [Hm' Hd']. split; [|exact Hd'].
  apply mem_cons_other; [|exact Hm']. intros ->. contradiction.
Qed.

Lemma files_loop (l : list string) :
  forall done, NoDup l ->
  (forall x, In x l -> mem x done = false /\ exists c, In (x, File c) es) ->
  snd (for_each (process_file_name cd root) l (level_state cd es done))
  = Ok (level_state cd es (rev l ++ done)).
Proof.
  induction l as [|x l IH]; intros done Hnd H; [reflexivity|].
  apply NoDup_cons_iff in Hnd as [Hx Hnd].
  destruct (H x (or_introl eq_refl)) as [Hm [c Hc]].
  rewrite for_each_snd_cons, (process_file_name_step done x c Hc Hm).
  rewrite IH; [simpl; now rewrite <- app_assoc | exact Hnd |].
  intros x' Hx'. destruct (H x' (or_intror Hx')) as [Hm' Hc']. split; [|exact Hc'].
  apply mem_cons_other; [|exact Hm']. intros ->. contradiction.
Qed.

Lemma dir_names_entries (x : string) :
  In x (dir_names es) -> exists d, In (x, Dir d) es.
Proof.
  unfold dir_names, names. intros H. apply in_map_iff in H as ([n y] & <- & H).
  apply filter_In in H as [H K]. simpl in *. destruct y as [c|d]; [discriminate|].
  now exists d.
Qed.

Lemma file_names_entries (x : string) :
  In x (file_names es) -> exists c, In (x, File c) es.
Proof.
  unfold file_names, names. intros H. apply in_map_iff in H as ([n y] & <- & H).
  apply filter_In in H as [H K]. simpl in *. destruct y as [c|d]; [|discriminate].
  now exists c.
Qed.

(** The body of the loop, run on a level without clashes, renames every
    entry and rewrites every file. *)
Lemma process_level_clash_free :
  snd (process_level cd root (dir_names es) (file_names es) es)
  = Ok (map (fun e => (replace_content (fst e), finish cd (snd e))) es).
Proof.
  assert (Hnd : NoDup (dir_names es ++ file_names es)).
  { apply (Permutation_NoDup (l := names es)); [|apply level_names_NoDup].
    symmetry. apply level_names_permutation. }
  assert (E0 : level_state cd es [] = es).
  { unfold level_state. rewrite <- (map_id es) at 2. apply map_ext. now intros [n y]. }
  assert (D : snd (for_each (process_dir_name root) (dir_names es) es)
              = Ok (level_state cd es (rev (dir_names es) ++ []))).
  { assert (D := dirs_loop (dir_names es) []).
    rewrite E0 in D. apply D.
    - now apply NoDup_app_remove_r in Hnd.
    - intros x Hx. split; [reflexivity | now apply dir_names_entries]. }
  rewrite process_level_snd, D. rewrite files_loop.
  - f_equal. unfold level_state. apply map_ext_in. intros [n y] Hn.
    unfold step_entry. simpl fst. simpl snd.
    assert (M : mem n (rev (file_names es) ++ rev (dir_names es) ++ []) = true).
    { apply mem_In. rewrite app_nil_r.
      apply (In_level_names n y) in Hn. apply in_app_or in Hn as [Hn|Hn];
        apply in_or_app; [right|left]; now apply in_rev in Hn. }
    now rewrite M.
  - now apply NoDup_app_remove_l in Hnd.
  - intros x Hx. split; [|now apply file_names_entries].
    destruct (mem x (rev (dir_names es) ++ [])) eqn:M; [|reflexivity].
    apply mem_In in M. rewrite app_nil_r in M. apply in_rev in M.
    exfalso. clear E0 D. revert Hnd x Hx M.
    generalize (dir_names es) (file_names es). intros a b.
    induction a as [|z a IHa]; intros Hnd x Hx [].
    + subst z. simpl in Hnd. apply NoDup_cons_iff in Hnd as [Hz _].
      apply Hz. apply in_or_app. now right.
    + simpl in Hnd. apply NoDup_cons_iff in Hnd as [_ Hnd]. now apply (IHa Hnd x).
Qed.

End Level.

Lemma names_walked (cd : codec) (es : entries) : names (map (walked cd) es) = names es.
Proof.
  unfold names. rewrite map_map. apply map_ext. now intros [n [c|d]].
Qed.

Lemma filter_walked (cd : codec) (p : node -> bool) (es : entries) :
  (forall e, p (snd (walked cd e)) = p (snd e)) ->
  filter (fun e => p (snd e)) (map (walked cd) es)
  = map (walked cd) (filter (fun e => p (snd e)) es).
Proof.
  intros H. induction es as [|e es IH]; [reflexivity|]. simpl.
  rewrite H, IH. now destruct (p (snd e)).
Qed.

Lemma dir_names_walked (cd : codec) (es : entries) :
  dir_names (map (walked cd) es) = dir_names es.
Proof.
  unfold dir_names. rewrite (filter_walked cd is_dir), names_walked; [reflexivity|].
  now intros [n [c|d]].
Qed.

Lemma file_names_walked (cd : codec) (es : entries) :
  file_names (map (walked cd) es) = file_names es.
Proof.
  unfold file_names.
  rewrite (filter_walked cd (fun x => negb (is_dir x))), names_walked; [reflexivity|].
  now intros [n [c|d]].
Qed.

Lemma walk_subdirs_clash_free (cd : codec) (root : path) (l : entries) :
  Forall (fun e => forall r, clash_free (snd e) = true ->
                             snd (walk cd r (snd e)) = Ok (transformed cd (snd e))) l ->
  forallb (fun e => match e with (_, child) => clash_free child end) l = true ->
  snd (walk_subdirs (walk cd) root l) = Ok (map (walked cd) l).
Proof.
  induction 1 as [|[name child] l Hc _ IH]; intros Hw; [reflexivity|].
  simpl in Hw. apply andb_true_iff in Hw as [Hwc Hw]. specialize (IH Hw).
  cbn [walk_subdirs map walked]. destruct child as [c|d].
  - destruct (walk_subdirs (walk cd) root l) as [tr [r|e]]; simpl in *; congruence.
  - specialize (Hc (root ++ [name]) Hwc). cbn [snd transformed] in Hc.
    destruct (walk cd (root ++ [name]) (Dir d)) as [tr1 [child'|e]]; simpl in Hc;
      [|discriminate].
    destruct (walk_subdirs (walk cd) root l) as [tr2 [r|e]]; simpl in *; congruence.
Qed.

Lemma finish_walked (cd : codec) (e : string * node) :
  (replace_content (fst (walked cd e)), finish cd (snd (walked cd e)))
  = (replace_content (fst e), transform cd (snd e)).
Proof. now destruct e as [n [c|d]]. Qed.

(** On a tree without name clashes the walk completes, and its result is
    the tree with every name replaced and the content of every file passed
    through [rewrite]. *)
Lemma walk_clash_free (cd : codec) (n : node) :
  forall root, clash_free n = true -> snd (walk cd root n) = Ok (transformed cd n).
Proof.
  induction n as [c|es IH] using node_induction; intros root Hc; [reflexivity|].
  simpl in Hc. apply andb_true_iff in Hc as [Hl Hc].
  assert (Hs := walk_subdirs_clash_free cd root es IH Hc).
  cbn [walk]. destruct (walk_subdirs (walk cd) root es) as [tr [es'|e]]; simpl in Hs;
    [|discriminate].
  injection Hs as ->.
  assert (Hn : level_clash_free (names (map (walked cd) es)) = true)
    by now rewrite names_walked.
  assert (Hp := process_level_clash_free cd root (map (walked cd) es) Hn).
  rewrite dir_names_walked, file_names_walked in Hp.
  destruct (process_level cd root (dir_names es) (file_names es) (map (walked cd) es))
    as [tr' [es''|e]]; simpl in Hp; [|discriminate].
  injection Hp as ->. cbn [snd transformed transform]. do 2 f_equal.
  rewrite map_map. apply map_ext. intros e. rewrite finish_walked. now destruct e.
Qed.

Lemma lookup_transform (cd : codec) (es : entries) (name : string) (child : node) :
  level_clash_free (names es) = true ->
  lookup name es = Some child ->
  lookup (replace_content name)
    (map (fun e => match e with
                   | (n, x) => (replace_content n, transform cd x)
                   end) es)
  = Some (transform cd child).
Proof.
  intros Hl H. apply lookup_Some_In in H.
  apply (lookup_map_at _ es name child);
    [now apply level_names_NoDup | exact H | reflexivity|].
  intros n y Hn Hne E. simpl in E. apply Hne.
  apply (level_new_names_injective es Hl); [now apply (In_names es n y) | | exact E].
  now apply (In_names es name child).
Qed.

(** An entry of a tree without clashes is found in the transformed tree
    under the new names. *)
Lemma find_transform (cd : codec) (q : path) :
  forall n x, clash_free n = true -> find n q = Some x ->
  find (transform cd n) (map replace_content q) = Some (transform cd x).
Proof.
  induction q as [|name q IH]; intros n x Hc H.
  - simpl in *. congruence.
  - destruct n as [c|es]; [discriminate|]. simpl in Hc, H.
    apply andb_true_iff in Hc as [Hl Hc].
    destruct (lookup name es) as [child|] eqn:E; [|discriminate].
    cbn [map transform find]. rewrite (lookup_transform cd es name child Hl E).
    apply IH; [|exact H].
    rewrite forallb_forall in Hc. apply lookup_Some_In in E. exact (Hc _ E).
Qed.

(** *** Binary files *)

Lemma process_content_writes (cd : codec) (p : path) (k : string) (es : entries) :
  writes_text_only cd (fst (process_content cd p k es)).
Proof.
  unfold process_content, is_binary.
  destruct (lookup k es) as [[c|d]|]; simpl.
  - destruct (text_readable cd c) eqn:T; simpl.
    + destruct (read_utf8 cd c) as [s|] eqn:R; simpl.
      * destruct (String.eqb_spec (replace_content s) s) as [E|E]; simpl.
        -- intros ? ? ? [].
        -- intros q before after [K|[K|[]]]; [|discriminate].
           injection K as _ <- <-. split; [exact T|]. now exists s.
      * intros ? ? ? [K|[]]. discriminate.
    + intros ? ? ? [K|[]]. discriminate.
  - intros ? ? ? [K|[]]. discriminate.
  - intros ? ? ? [K|[]]. discriminate.
Qed.

Lemma walk_writes_text_only (cd : codec) (root : path) (n : node) :
  writes_text_only cd (fst (walk cd root n)).
Proof.
  apply (walk_trace cd (fun _ => writes_text_only cd)).
  - intros _ ? ? ? [].
  - intros _ a b Ha Hb p before after H.
    apply in_app_or in H as [H|H]; [now apply (Ha p) | now apply (Hb p)].
  - auto.
  - intros r name es. unfold process_dir_name.
    destruct (negb (path_eqb (r ++ [name]) (r ++ [replace_content name]))).
    + destruct (os_rename name (replace_content name) es); simpl;
        intros ? ? ? K; repeat (destruct K as [K|K]; [discriminate|]); contradiction.
    + simpl. intros ? ? ? [K|[]]. discriminate.
  - intros r name es. unfold process_file_name.
    destruct (negb (path_eqb (r ++ [name]) (r ++ [replace_content name]))).
    + destruct (os_rename name (replace_content name) es) as [es'|e]; simpl.
      * assert (W := process_content_writes cd (r ++ [replace_content name])
                       (replace_content name) es').
        destruct (process_content cd (r ++ [replace_content name])
                    (replace_content name) es') as [tr res0].
        simpl in *. intros p before after [K|[K|[K|K]]]; try discriminate.
        now apply (W p).
      * intros ? ? ? K; repeat (destruct K as [K|K]; [discriminate|]); contradiction.
    + assert (W := process_content_writes cd (r ++ [replace_content name])
                     (replace_content name) es).
      destruct (process_content cd (r ++ [replace_content name])
                  (replace_content name) es) as [tr res0].
      simpl in *. intros p before after [K|K]; [discriminate|]. now apply (W p).
Qed.

Lemma rewrite_binary (cd : codec) (c : bytes) :
  text_readable cd c = false -> rewrite cd c = c.
Proof. intros H. unfold rewrite. now rewrite H. Qed.

(** C5, corrected: a file classified binary is never written to and is
    renamed like any other entry; its bytes are the same after the
    transformation when the tree has no rename clashes.  In the trace of
    [process_directory], on every tree, each write replaces a content that
    reads as text, so none replaces the content of a binary file, and a
    visited file whose name the substitution pass changes is renamed
    whatever its content.  On a tree without clashes (in every directory
    the names are distinct, so are their new names, and no entry is renamed
    onto the name of another) the run completes and each binary file is
    found, with the bytes it had, at the path made of the new names. *)
Theorem binary_files_renamed_not_rewritten (cd : codec) (dir_path : path) (tree : node) :
  let tr := fst (process_directory cd dir_path tree) in
  (forall p before after, In (Write p before after) tr ->
     text_readable cd before = true) /\
  (forall root name, In (VisitFile (root ++ [name])) tr ->
     replace_content name <> name ->
     In (Rename (root ++ [name]) (root ++ [replace_content name])) tr) /\
  (clash_free tree = true ->
   forall q c, find tree q = Some (File c) -> text_readable cd c = false ->
   exists tree',
     snd (process_directory cd dir_path tree) = Ok tree' /\
     find tree' (map replace_content q) = Some (File c)).
Proof.
  intros tr. unfold process_directory in *. split; [|split].
  - intros p before after H.
    exact (proj1 (walk_writes_text_only cd dir_path tree p before after H)).
  - assert (H : rename_discipline tr).
    { apply (walk_trace cd (fun _ => rename_discipline)).
      - split; [intros ? ? []|intros ? ? [[]|[]]].
      - intros _. apply rename_discipline_app.
      - auto.
      - apply rename_discipline_dir.
      - apply rename_discipline_file. }
    intros root name Hv Hne. apply (proj2 H); [now right | exact Hne].
  - intros Hc q c Hf Hb. exists (transformed cd tree).
    split; [now apply walk_clash_free|].
    destruct tree as [c0|es].
    + destruct q; [exact Hf | discriminate].
    + cbn [transformed]. rewrite (find_transform cd q _ _ Hc Hf).
      simpl. now rewrite rewrite_binary.
Qed.

(** C5 on a small tree: the binary file two levels down is found, byte for
    byte, under the new names of its directory and of itself. *)
Lemma binary_files_renamed_not_rewritten_witness :
  let tree := Dir [("Tools", Dir [("biotool.png", File [Byte.xff; Byte.x00])]);
                   ("notes.txt", File (list_byte_of_string "bio.tools"))] in
  clash_free tree = true /\
  find tree ["Tools"; "biotool.png"] = Some (File [Byte.xff; Byte.x00]) /\
  text_readable ascii_codec [Byte.xff; Byte.x00] = false /\
  exists tree',
    snd (process_directory ascii_codec ["repo"] tree) = Ok tree' /\
    find tree' ["Agents"; "bioagent.png"] = Some (File [Byte.xff; Byte.x00]).
Proof.
  intros tree. split; [reflexivity|]. split; [reflexivity|]. split; [reflexivity|].
  destruct (binary_files_renamed_not_rewritten ascii_codec ["repo"] tree) as (_ & _ & H).
  exact (H eq_refl ["Tools"; "biotool.png"] [Byte.xff; Byte.x00] eq_refl eq_refl).
Defined.

(** C5 as stated fails on a tree with a rename clash: [os.rename] replaces
    an existing file.  The directory lists each name once; "agents.bin" is
    classified binary and skipped; then "tools.bin" is renamed to
    "agents.bin" and takes its place.  The run completes, and no path of
    the resulting tree holds the bytes of the binary file. *)
Lemma binary_file_replaced_by_renamed_sibling :
  let tree := Dir [("agents.bin", File [Byte.xff]);
                   ("tools.bin", File (list_byte_of_string "x"))] in
  let tree' := Dir [("agents.bin", File (list_byte_of_string "x"))] in
  well_formed tree = true /\
  clash_free tree = false /\
  find tree ["agents.bin"] = Some (File [Byte.xff]) /\
  text_readable ascii_codec [Byte.xff] = false /\
  process_directory ascii_codec ["repo"] tree
  = ([VisitFile ["repo"; "agents.bin"];
      Say (SkippedBinary ["repo"; "agents.bin"]);
      VisitFile ["repo"; "tools.bin"];
      Rename ["repo"; "tools.bin"] ["repo"; "agents.bin"];
      Say (RenamedFile ["repo"; "tools.bin"] ["repo"; "agents.bin"])],
     Ok tree') /\
  (forall q, find tree' q <> Some (File [Byte.xff])).
Proof.
  repeat split.
  intros [|name q]; [discriminate|]. cbn [find lookup].
  destruct (String.eqb "agents.bin" name); [|discriminate].
  destruct q; discriminate.
Qed.

(** *** Each entry is processed once *)

Lemma path_eqb_refl (p : path) : path_eqb p p = true.
Proof. unfold path_eqb. now destruct (list_eq_dec string_dec p p). Qed.

Lemma path_eqb_true (p q : path) : path_eqb p q = true -> p = q.
Proof. unfold path_eqb. now destruct (list_eq_dec string_dec p q). Qed.

(** A trace that starts with a visit can follow any other: the visit starts
    afresh. *)
Lemma one_pass_app (a b : list event) :
  starts_with_visit b -> one_pass_per_visit b = true ->
  forall cur is_file renamed written,
    one_pass cur is_file renamed written a = true ->
    one_pass cur is_file renamed written (a ++ b) = true.
Proof.
  intros Hs Hb. induction a as [|e a IH]; intros cur is_file renamed written Ha.
  - destruct b as [|[p|p|old new|p x y|m] b]; try contradiction; try reflexivity;
      exact Hb.
  - destruct e as [p|p|old new|p x y|m]; cbn [one_pass app] in *.
    + now apply IH.
    + now apply IH.
    + destruct cur as [c|]; [|discriminate].
      apply andb_true_iff in Ha as [Ha Hr]. rewrite Ha. now apply IH.
    + destruct cur as [c|]; [|discriminate].
      apply andb_true_iff in Ha as [Ha Hr]. rewrite Ha. now apply IH.
    + now apply IH.
Qed.

Lemma starts_with_visit_app (a b : list event) :
  starts_with_visit a -> starts_with_visit b -> starts_with_visit (a ++ b).
Proof. destruct a as [|e a]; [easy | now destruct e]. Qed.

Lemma process_content_one_pass (cd : codec) (p : path) (name : string) (es : entries)
  (renamed : bool) :
  one_pass (Some p) true renamed false (fst (process_content cd p name es)) = true.
Proof.
  unfold process_content. destruct (negb (is_binary cd name es)); [|reflexivity].
  destruct (lookup name es) as [[c|d]|]; try reflexivity.
  destruct (read_utf8 cd c) as [content|]; [|reflexivity].
  destruct (negb (String.eqb (replace_content content) content)); [|reflexivity].
  cbn [fst one_pass]. now rewrite path_eqb_refl.
Qed.

Lemma walk_one_pass (cd : codec) (n : node) (root : path) :
  starts_with_visit (fst (walk cd root n)) /\
  one_pass_per_visit (fst (walk cd root n)) = true.
Proof.
  apply (walk_trace cd
           (fun _ tr => starts_with_visit tr /\ one_pass_per_visit tr = true)).
  - intros _. now split.
  - intros _ a b [Sa Pa] [Sb Pb]. split; [now apply starts_with_visit_app|].
    now apply one_pass_app.
  - auto.
  - intros r name es. unfold process_dir_name.
    destruct (negb (path_eqb (r ++ [name]) (r ++ [replace_content name])));
      [|now split].
    destruct (os_rename name (replace_content name) es) as [es'|e];
      (split; [exact I|]); unfold one_pass_per_visit; cbn [fst one_pass];
      now rewrite path_eqb_refl.
  - intros r name es. unfold process_file_name.
    destruct (negb (path_eqb (r ++ [name]) (r ++ [replace_content name]))) eqn:E.
    + destruct (os_rename name (replace_content name) es) as [es'|e].
      * assert (H := process_content_one_pass cd (r ++ [replace_content name])
                       (replace_content name) es' true).
        destruct (process_content cd (r ++ [replace_content name])
                    (replace_content name) es') as [tr res0].
        split; [exact I|]. unfold one_pass_per_visit. cbn [fst one_pass] in *.
        now rewrite path_eqb_refl.
      * split; [exact I|]. unfold one_pass_per_visit. cbn [fst one_pass].
        now rewrite path_eqb_refl.
    + apply negb_false_iff, path_eqb_true in E.
      assert (H := process_content_one_pass cd (r ++ [replace_content name])
                     (replace_content name) es false).
      destruct (process_content cd (r ++ [replace_content name])
                  (replace_content name) es) as [tr res0].
      split; [exact I|]. unfold one_pass_per_visit. cbn [fst one_pass] in *.
      now rewrite E.
Qed.

Lemma clash_free_well_formed (n : node) : clash_free n = true -> well_formed n = true.
Proof.
  induction n as [c|es IH] using node_induction; [reflexivity|].
  cbn [clash_free well_formed]. intros H. apply andb_true_iff in H as [Hl Hc].
  unfold level_clash_free in Hl.
  apply andb_true_iff in Hl as [Hl _]. apply andb_true_iff in Hl as [Hd _].
  rewrite Hd. cbn [andb]. rewrite forallb_forall in *. rewrite Forall_forall in IH.
  intros [name child] Hin. specialize (IH _ Hin). specialize (Hc _ Hin).
  simpl in *. now apply IH.
Qed.




(* ================================================================== *)
(** * Properties of the publish pipelines *)

Local Open Scope string_scope.

(** C7: when the target repository exists and [reprocess] is false,
    [process_repo] of [gen_repos.py] stops at once: it prints the two names,
    looks the organization and the repository up, prints that it skips, and
    returns; no step of the run changes anything on the remote host or on
    the disk (nothing is created, deleted, cloned, transformed, committed or
    pushed). *)
Theorem existing_target_is_skipped (w : GenRepos.world) (repo : GenRepos.repository)
  (github_token target_org_name local_dir : string) :
  GenRepos.get_organization_result w = Ok tt ->
  GenRepos.get_repo_result w = Ok tt ->
  let run := GenRepos.process_repo w repo github_token target_org_name local_dir false in
  let new_name := GenRepos.new_repo_name repo in
  run = ([Local (Say (OriginalAndNewName (GenRepos.name repo) new_name));
          Call (GetOrganization target_org_name);
          Call (GetRepo new_name);
          Local (Say (AlreadyExistsSkipping new_name))], Returned) /\
  avoids changes_state run.
Proof.
  intros Ho Hr run new_name.
  assert (E : run = ([Local (Say (OriginalAndNewName (GenRepos.name repo) new_name));
                      Call (GetOrganization target_org_name);
                      Call (GetRepo new_name);
                      Local (Say (AlreadyExistsSkipping new_name))], Returned)).
  { unfold run, GenRepos.process_repo, GenRepos.prepare. rewrite Ho, Hr. reflexivity. }
  split; [exact E|]. now rewrite E.
Qed.

(** C7 on a concrete run. *)
Lemma existing_target_is_skipped_witness :
  GenRepos.get_organization_result existing_target_world = Ok tt /\
  GenRepos.get_repo_result existing_target_world = Ok tt /\
  GenRepos.process_repo existing_target_world example_repo "token" "bio-agents" "./" false
  = ([Local (Say (OriginalAndNewName "BioToolsSchema" "bio-agents-schema"));
      Call (GetOrganization "bio-agents");
      Call (GetRepo "bio-agents-schema");
      Local (Say (AlreadyExistsSkipping "bio-agents-schema"))], Returned).
Proof.
  split; [reflexivity|]. split; [reflexivity|].
  exact (proj1 (existing_target_is_skipped existing_target_world example_repo
                  "token" "bio-agents" "./" eq_refl eq_refl)).
Defined.

(** C10: in [re_in_repos.py], when the local copy exists and is dirty,
    [process_repo] returns right after the check: nothing is renamed or
    replaced, committed or pushed, and no step of the run changes anything. *)
Theorem dirty_repository_is_skipped (w : ReInRepos.world)
  (repo_name old_str new_str github_token org_name : string) :
  ReInRepos.get_organization_result w = Ok tt ->
  ReInRepos.local_path_exists w = true ->
  ReInRepos.repo_open_result w = Ok tt ->
  ReInRepos.is_dirty_result w = Ok true ->
  let run := ReInRepos.process_repo w repo_name old_str new_str github_token org_name in
  run = ([Call (GetOrganization org_name);
          Call (PathExists ["./" ++ repo_name]);
          Local (Say (LocalRepositoryFound repo_name));
          Call (RepoOpen ["./" ++ repo_name]);
          Call IsDirty;
          Local (Say (UncommittedChangesSkipping repo_name))], Returned) /\
  avoids changes_state run /\
  (forall s, In s (fst run) ->
     match s with
     | Call (RunCommand _) | Call GitAddAll | Call (GitCommit _) | Call RemotePush => False
     | _ => True
     end).
Proof.
  intros Ho Hp Hr Hd run.
  assert (E : run = ([Call (GetOrganization org_name);
                      Call (PathExists ["./" ++ repo_name]);
                      Local (Say (LocalRepositoryFound repo_name));
                      Call (RepoOpen ["./" ++ repo_name]);
                      Call IsDirty;
                      Local (Say (UncommittedChangesSkipping repo_name))], Returned)).
  { unfold run, ReInRepos.process_repo, ReInRepos.is_repo_clean.
    rewrite Ho, Hp, Hr, Hd. reflexivity. }
  split; [exact E|]. rewrite E. split; [reflexivity|].
  intros s H. simpl in H.
  repeat (destruct H as [<-|H]; [exact I|]). contradiction.
Qed.

(** C10 on a concrete run. *)
Lemma dirty_repository_is_skipped_witness :
  ReInRepos.get_organization_result dirty_world = Ok tt /\
  ReInRepos.local_path_exists dirty_world = true /\
  ReInRepos.repo_open_result dirty_world = Ok tt /\
  ReInRepos.is_dirty_result dirty_world = Ok true /\
  snd (ReInRepos.process_repo dirty_world "biotools" "tool" "agent" "token" "bio-tools")
  = Returned.
Proof.
  repeat (split; [reflexivity|]).
  rewrite (proj1 (dirty_repository_is_skipped dirty_world "biotools" "tool" "agent"
                    "token" "bio-tools" eq_refl eq_refl eq_refl eq_refl)).
  reflexivity.
Defined.

(** *** The push is tried three times at most *)

Lemma avoids_bind {A B : Type} (c : step -> bool) (m : M A) (k : A -> M B) :
  avoids c m -> (forall a, avoids c (k a)) -> avoids c (bind m k).
Proof.
  unfold avoids, bind. destruct m as [tr [a| |e]]; intros Hm Hk; try exact Hm.
  specialize (Hk a). destruct (k a) as [tr' o]. simpl in *.
  now rewrite forallb_app, Hm, Hk.
Qed.

Lemma avoids_try {A : Type} (c : step -> bool) (m : M A) (handles : exn -> bool)
  (handler : exn -> M A) :
  avoids c m -> (forall e, avoids c (handler e)) -> avoids c (try_except m handles handler).
Proof.
  unfold avoids, try_except. destruct m as [tr [a| |e]]; intros Hm Hh; try exact Hm.
  destruct (handles e); [|exact Hm].
  specialize (Hh e). destruct (handler e) as [tr' o]. simpl in *.
  now rewrite forallb_app, Hm, Hh.
Qed.

Lemma avoids_perform {A : Type} (c : step -> bool) (x : call) (r : res A) :
  c (Call x) = false -> avoids c (perform x r).
Proof. unfold avoids. simpl. now intros ->. Qed.

Lemma avoids_say (c : step -> bool) (m : message) :
  c (Local (Say m)) = false -> avoids c (say m).
Proof. unfold avoids. simpl. now intros ->. Qed.

Lemma avoids_local_run {A : Type} (c : step -> bool) (r : list event * res A) :
  (forall e, c (Local e) = false) -> avoids c (local_run r).
Proof.
  intros H. unfold avoids, local_run. simpl. apply forallb_forall.
  intros s Hs. apply in_map_iff in Hs as (e & <- & _). now rewrite H.
Qed.

(** Nothing before the push grants access to anyone. *)
Lemma prepare_grants_nothing (w : GenRepos.world) (repo : GenRepos.repository)
  (github_token target_org_name local_dir : string) (reprocess : bool) :
  avoids is_grant (GenRepos.prepare w repo github_token target_org_name local_dir reprocess).
Proof.
  unfold GenRepos.prepare.
  repeat first
    [ apply avoids_bind; [|intros ?]
    | apply avoids_try; [|intros ?]
    | apply avoids_perform; reflexivity
    | apply avoids_say; reflexivity
    | apply avoids_local_run; reflexivity
    | reflexivity
    | match goal with |- avoids _ (if ?b then _ else _) => destruct b end ].
Qed.

Lemma avoids_In {A : Type} (c : step -> bool) (m : M A) (s : step) :
  avoids c m -> In s (fst m) -> c s = false.
Proof.
  unfold avoids. rewrite forallb_forall. intros H Hs. specialize (H s Hs).
  now apply negb_true_iff in H.
Qed.

Lemma bind_Val {A B : Type} (tr : list step) (a : A) (k : A -> M B) :
  bind (tr, Val a) k = ((tr ++ fst (k a))%list, snd (k a)).
Proof. unfold bind. now destruct (k a). Qed.

Lemma bind_Returned {A B : Type} (tr : list step) (k : A -> M B) :
  bind (tr, @Returned A) k = (tr, Returned).
Proof. reflexivity. Qed.

(** The loop when the first [k] attempts fail and the next one succeeds. *)
Lemma push_loop_succeeds (w : GenRepos.world) (repo : GenRepos.repository)
  (branch : string) (k : nat) :
  k <= 2 ->
  (forall i, i < k -> GenRepos.push_result w i = Raise GitCommandError) ->
  GenRepos.push_result w k = Ok tt ->
  GenRepos.push_loop w repo branch (seq 0 3)
  = ((concat (repeat (failed_attempt branch) k)
      ++ [Call (GitPush ["--force"; "--set-upstream"; "origin"; branch]);
          Local (Say (SuccessfullyPushed branch (GenRepos.new_repo_name repo)))])%list,
     Val tt).
Proof.
  intros Hk Hfail Hok. cbn [seq GenRepos.push_loop].
  destruct k as [|[|[|k]]]; [| | |lia].
  - rewrite Hok. reflexivity.
  - rewrite (Hfail 0) by lia. rewrite Hok. reflexivity.
  - rewrite (Hfail 0), (Hfail 1) by lia. rewrite Hok. reflexivity.
Qed.

(** The loop when three attempts in a row fail. *)
Lemma push_loop_gives_up (w : GenRepos.world) (repo : GenRepos.repository)
  (branch : string) :
  (forall i, i < 3 -> GenRepos.push_result w i = Raise GitCommandError) ->
  GenRepos.push_loop w repo branch (seq 0 3)
  = ((concat (repeat (failed_attempt branch) 2)
      ++ [Call (GitPush ["--force"; "--set-upstream"; "origin"; branch]);
          Local (Say (ErrorPushing (GenRepos.new_repo_name repo)))])%list,
     Returned).
Proof.
  intros Hfail. cbn [seq GenRepos.push_loop].
  rewrite (Hfail 0), (Hfail 1), (Hfail 2) by lia. reflexivity.
Qed.

(** C8: the push is tried three times at most, five seconds apart.  Once
    the run has reached the push: if the first [k] attempts fail with a
    [GitCommandError], [k] being at most 2, and the next one succeeds, the
    run makes exactly [k + 1] push calls, goes on to the collaborator grant
    and ends normally after printing that the repository was processed; if
    three attempts in a row fail, the run returns after the third one and
    the collaborator grant is not executed. *)
Theorem push_retried_up_to_three_times (w : GenRepos.world) (repo : GenRepos.repository)
  (github_token target_org_name local_dir : string) (reprocess : bool)
  (before : list step) (branch : string) :
  GenRepos.prepare w repo github_token target_org_name local_dir reprocess
    = (before, Val branch) ->
  let run := GenRepos.process_repo w repo github_token target_org_name local_dir
               reprocess in
  let new_name := GenRepos.new_repo_name repo in
  let push := Call (GitPush ["--force"; "--set-upstream"; "origin"; branch]) in
  (forall k, k <= 2 ->
     (forall i, i < k -> GenRepos.push_result w i = Raise GitCommandError) ->
     GenRepos.push_result w k = Ok tt ->
     exists grant,
       run = ((before ++ concat (repeat (failed_attempt branch) k)
               ++ [push; Local (Say (SuccessfullyPushed branch new_name))]
               ++ Call (GetRepo new_name) :: grant
               ++ [Local (Say (ProcessedAndPushed new_name))])%list, Val tt) /\
       ~ In push grant) /\
  ((forall i, i < 3 -> GenRepos.push_result w i = Raise GitCommandError) ->
   run = ((before ++ concat (repeat (failed_attempt branch) 2)
           ++ [push; Local (Say (ErrorPushing new_name))])%list, Returned) /\
   forall user permission, ~ In (Call (AddToCollaborators user permission)) (fst run)).
Proof.
  intros Hprep run new_name push. split.
  - intros k Hk Hfail Hok.
    assert (G : exists grant,
               try_except
                 (perform (GetRepo new_name) (GenRepos.get_repo_again_result w) ;;
                  perform (AddToCollaborators "chenxingqiang" "admin")
                    (GenRepos.add_to_collaborators_result w) ;;
                  say (AddedCollaborator new_name))
                 is_Exception
                 (fun _ => say (ErrorAddingCollaborator new_name))
               = (Call (GetRepo new_name) :: grant, Val tt) /\ ~ In push grant).
    { destruct (GenRepos.get_repo_again_result w) as [[]|e].
      - destruct (GenRepos.add_to_collaborators_result w) as [[]|e].
        + eexists. split; [reflexivity|]. simpl. intuition discriminate.
        + eexists. split; [reflexivity|]. simpl. intuition discriminate.
      - eexists. split; [reflexivity|]. simpl. intuition discriminate. }
    destruct G as (grant & G & Hg). exists grant. split; [|exact Hg].
    unfold run, GenRepos.process_repo. rewrite Hprep, bind_Val.
    unfold GenRepos.push_and_grant.
    rewrite (push_loop_succeeds w repo branch k Hk Hfail Hok), bind_Val.
    fold new_name. rewrite G, bind_Val. cbn [fst snd say].
    f_equal. rewrite <- !app_assoc. reflexivity.
  - intros Hfail.
    assert (E : run = ((before ++ concat (repeat (failed_attempt branch) 2)
                        ++ [push; Local (Say (ErrorPushing new_name))])%list, Returned)).
    { unfold run, GenRepos.process_repo. rewrite Hprep, bind_Val.
      unfold GenRepos.push_and_grant.
      rewrite (push_loop_gives_up w repo branch Hfail), bind_Returned.
      reflexivity. }
    split; [exact E|]. intros user permission Hin. rewrite E in Hin. simpl in Hin.
    apply in_app_or in Hin as [Hin|Hin].
    + assert (P := prepare_grants_nothing w repo github_token target_org_name local_dir
                     reprocess).
      rewrite Hprep in P. apply (avoids_In _ _ _ P) in Hin. discriminate.
    + simpl in Hin. repeat (destruct Hin as [Hin|Hin]; [discriminate|]). contradiction.
Qed.

(** C8 on two concrete runs: two failed attempts and a success make three
    pushes and a normal end; a remote that refuses every push makes the run
    return without the grant. *)
Lemma push_retried_up_to_three_times_witness :
  let flaky := friendly_world (fun i => if Nat.ltb i 2 then Raise GitCommandError else Ok tt) in
  let down := friendly_world (fun _ => Raise GitCommandError) in
  let run1 := GenRepos.process_repo flaky example_repo "token" "bio-agents" "./" false in
  let run2 := GenRepos.process_repo down example_repo "token" "bio-agents" "./" false in
  snd (GenRepos.prepare flaky example_repo "token" "bio-agents" "./" false) = Val "master" /\
  snd run1 = Val tt /\
  length (filter (fun s => match s with Call (GitPush _) => true | _ => false end)
            (fst run1)) = 3 /\
  snd run2 = Returned /\
  forall user permission, ~ In (Call (AddToCollaborators user permission)) (fst run2).
Proof.
  intros flaky down run1 run2.
  destruct (push_retried_up_to_three_times flaky example_repo "token" "bio-agents" "./"
              false
              (fst (GenRepos.prepare flaky example_repo "token" "bio-agents" "./" false))
              "master" eq_refl) as [Hs _].
  destruct (Hs 2) as (grant & E & _);
    [lia | intros [|[|i]] Hi; [reflexivity | reflexivity | lia] | reflexivity |].
  destruct (push_retried_up_to_three_times down example_repo "token" "bio-agents" "./"
              false
              (fst (GenRepos.prepare down example_repo "token" "bio-agents" "./" false))
              "master" eq_refl) as [_ Hf].
  destruct Hf as [E2 Hg]; [intros i _; reflexivity|].
  split; [reflexivity|]. split; [reflexivity|]. split; [reflexivity|].
  split; [reflexivity | exact Hg].
Defined.
